(** * socrata-py: the chunked upload of [socrata/sources.py]

    A shallow embedding of [ChunkIterator] and of the upload entry points of
    [Source], with the properties of the chunk accounting, of the commit
    decision and of the failure paths.

    Python integers are unbounded, so they are [Z]; a [bytes] value is a
    [list byte]; a tuple is a product; an exception is a constructor of
    [exn] carried by [result]. *)

From Stdlib Require Import String.
From Stdlib Require Import ZArith List Lia Bool Permutation Sorted Finite.
From Stdlib Require Import DecimalString DecimalZ DecimalPos.
Import ListNotations.

Local Open Scope Z_scope.

(** ** Exceptions and results *)

Inductive exn : Type :=
| StopIteration
| IndexError
| AttributeError (attr : string)
| TransportError (status : Z).

Inductive result (A : Type) : Type :=
| Ok (a : A)
| Raise (e : exn).

Arguments Ok {A} a.
Arguments Raise {A} e.

(** ** The objects handed over as [file_handle]

    [FileObj unread] is a binary file object, seen through the bytes it has
    not delivered yet: an [io.BytesIO], an unbuffered file, or the buffered
    handle that [open(path, 'rb')] gives.  For a size of 0 or more, and for
    -1, [read] is the same on all of them.  Below -1 the buffered handle
    raises [ValueError] where the others still return all that is left; that
    exception is not modelled, so nothing is stated here about a buffered
    handle read with a size below -1.
    [BytesObj] is a plain [bytes] value, which has no [read] attribute. *)

Inductive pyobj : Type :=
| FileObj (unread : list Byte.byte)
| BytesObj (value : list Byte.byte).

(** [f.read(size)]: at most [size] bytes, all that is left when [size] is
    -1 (or, for [io.BytesIO] and unbuffered files, any negative size), and
    [b''] at the end of the file. *)
Definition read (f : pyobj) (size : Z) : result (list Byte.byte) * pyobj :=
  match f with
  | FileObj unread =>
      if size <? 0 then (Ok unread, FileObj [])
      else (Ok (firstn (Z.to_nat size) unread),
            FileObj (skipn (Z.to_nat size) unread))
  | BytesObj _ => (Raise (AttributeError "read"%string), f)
  end.

(** [len(read)] *)
Definition len (b : list Byte.byte) : Z := Z.of_nat (length b).

(** Truth value of a [bytes] object: [not b] holds for [b''] only. *)
Definition not_ (b : list Byte.byte) : bool :=
  match b with [] => true | _ :: _ => false end.

(** ** ChunkIterator *)

(** [(this_seq, this_byte_offset, self.byte_offset, read)] *)
Definition Chunk : Type := Z * Z * Z * list Byte.byte.

Definition chunk_seq (c : Chunk) : Z := let '(s, _, _, _) := c in s.
Definition chunk_begin (c : Chunk) : Z := let '(_, b, _, _) := c in b.
Definition chunk_end (c : Chunk) : Z := let '(_, _, e, _) := c in e.
Definition chunk_payload (c : Chunk) : list Byte.byte :=
  let '(_, _, _, p) := c in p.

Record ChunkIterator : Type := mkChunkIterator {
  _filelike : pyobj;
  _chunk_size : Z;
  seq_num : Z;
  byte_offset : Z
}.

Definition __init__ (filelike : pyobj) (chunk_size : Z) : ChunkIterator :=
  {| _filelike := filelike; _chunk_size := chunk_size;
     seq_num := 0; byte_offset := 0 |}.

(** The body of [__next__], as one function of the iterator's fields: the
    whole body runs under [self.lock] (module [Threads] below has the lock
    and the single statements). *)
Definition __next__ (self : ChunkIterator) : result Chunk * ChunkIterator :=
  match read (_filelike self) (_chunk_size self) with
  | (Raise e, f') =>
      (Raise e, mkChunkIterator f' (_chunk_size self) (seq_num self) (byte_offset self))
  | (Ok rd, f') =>
      if not_ rd then
        (Raise StopIteration,
         mkChunkIterator f' (_chunk_size self) (seq_num self) (byte_offset self))
      else
        let this_seq := seq_num self in
        let this_byte_offset := byte_offset self in
        let self' :=
          mkChunkIterator f' (_chunk_size self)
            (seq_num self + 1) (byte_offset self + len rd) in
        (Ok (this_seq, this_byte_offset, byte_offset self', rd), self')
  end.

(** [list(iterator)]: call [__next__] until it raises.  [StopIteration] ends
    the loop; any other exception leaves it.  [None] is "out of fuel". *)
Fixpoint collect (fuel : nat) (it : ChunkIterator)
  : option (result (list Chunk) * ChunkIterator) :=
  match fuel with
  | O => None
  | S fuel' =>
      match __next__ it with
      | (Raise StopIteration, it') => Some (Ok [], it')
      | (Raise e, it') => Some (Raise e, it')
      | (Ok c, it') =>
          match collect fuel' it' with
          | Some (Ok cs, it'') => Some (Ok (c :: cs), it'')
          | other => other
          end
      end
  end.

(** Bytes the iterator has still to read. *)
Definition unread_bytes (f : pyobj) : list Byte.byte :=
  match f with FileObj u => u | BytesObj _ => [] end.

(** Every chunk takes at least one byte, so one call more than there are
    bytes is enough. *)
Definition chunks_of (stream : list Byte.byte) (chunk_size : Z)
  : option (result (list Chunk) * ChunkIterator) :=
  collect (S (length stream)) (__init__ (FileObj stream) chunk_size).

(** ** What the chunk accounting is required to satisfy *)

(** The ranges [[chunk_begin, chunk_end)] follow one another from [from]
    up to [upto]: no gap, no overlap. *)
Fixpoint tiles (from upto : Z) (cs : list Chunk) : Prop :=
  match cs with
  | [] => from = upto
  | c :: cs' => chunk_begin c = from /\ from < chunk_end c /\ tiles (chunk_end c) upto cs'
  end.

(** Sequence numbers are [first, first + 1, ...] in list order. *)
Fixpoint numbered (first : Z) (cs : list Chunk) : Prop :=
  match cs with
  | [] => True
  | c :: cs' => chunk_seq c = first /\ numbered (first + 1) cs'
  end.

(** Each payload is as long as its range and no longer than [bound]. *)
Definition payload_ok (bound : Z) (c : Chunk) : Prop :=
  len (chunk_payload c) = chunk_end c - chunk_begin c /\
  1 <= len (chunk_payload c) <= bound.

Definition payloads (cs : list Chunk) : list Byte.byte :=
  concat (map chunk_payload cs).


(** ** Resources, collaborator calls and their log *)

(** A [Source] resource, as far as the upload looks at it: which remote
    resource it mirrors and [attributes['parse_options']['parse_source']]. *)
Record Source : Type := mkSource {
  source_id : Z;
  parse_source : bool
}.

(** The reply of [initiate]. *)
Record InitResponse : Type := mkInitResponse {
  preferred_chunk_size : Z;
  preferred_upload_parallelism : Z
}.

(** One entry per request sent to the service, in the order of sending. *)
Inductive event : Type :=
| EInitiate (self : Source) (content_type : string)
| EChunk (self : Source) (seq_num byte_offset : Z) (bytes : list Byte.byte)
| ECommit (self : Source) (seq_num byte_offset : Z)
| EShow (self : Source)
| EChangeParseOption (self : Source) (name : string) (value : bool).

(** A call returns, raises, or never comes back. *)
Inductive outcome (A : Type) : Type :=
| Returns (a : A)
| Raises (e : exn)
| Hangs.

Arguments Returns {A} a.
Arguments Raises {A} e.
Arguments Hangs {A}.

(** Computations that send requests: the requests sent, then the outcome. *)
Definition M (A : Type) : Type := list event * outcome A.

Definition ret {A : Type} (a : A) : M A := ([], Returns a).

Definition bind {A B : Type} (m : M A) (k : A -> M B) : M B :=
  match m with
  | (log, Returns a) => let (log', r) := k a in (log ++ log', r)
  | (log, Raises e) => (log, Raises e)
  | (log, Hangs) => (log, Hangs)
  end.

Notation "x <- m ;; k" := (bind m (fun x => k))
  (at level 61, m at next level, right associativity).
Notation "' pat <- m ;; k" := (bind m (fun x => match x with pat => k end))
  (at level 61, pat pattern, m at next level, right associativity).

(** One request [ev] answered by [reply]. *)
Definition request {A : Type} (ev : event) (reply : result A) : M A :=
  ([ev], match reply with Ok a => Returns a | Raise e => Raises e end).

Definition throw {A : Type} (r : result A) : M A :=
  ([], match r with Ok a => Returns a | Raise e => Raises e end).

(** ** [sorted(results, key=...)] and [[-1]] *)

Section Sorting.

Context {A : Type}.
Variable key : A -> Z.

(** [x] goes in front of the first element whose key is not smaller, so
    equal keys keep their order: the sort is stable, as Python's is. *)
Fixpoint insert_sorted (x : A) (l : list A) : list A :=
  match l with
  | [] => [x]
  | y :: l' => if key x <=? key y then x :: l else y :: insert_sorted x l'
  end.

Definition sorted (l : list A) : list A := fold_right insert_sorted [] l.

(** [l[-1]] *)
Fixpoint item_last (l : list A) : result A :=
  match l with
  | [] => Raise IndexError
  | [x] => Ok x
  | _ :: l' => item_last l'
  end.

End Sorting.

(** ** LazyThreadPoolExecutor *)

(** [socrata/lazy_pool.py] is not among the sources; the pool is modelled
    from sections 4.2 and 5 of the specification.  A fixed number of workers
    pull chunks from the shared reader and call the upload function on each;
    calls return in any order; after the first failure no new chunk is
    admitted, the calls already in flight run to their end and their results
    are dropped, and the first error is what [map] raises; [map] gives its
    results only when nothing is in flight any more.  The order in which the
    workers move is taken from a list of choices, so that every interleaving
    is the run of some list.  A request is logged when its worker pulls the
    chunk, so the chunk requests stand in the log in the order of reading;
    the workers send them after the reader's lock is released, in any order,
    and therefore the chunk requests of a log are only ever used up to their
    order. *)
Section Pool.

Context {R : Type}.

Record pool : Type := mkPool {
  pool_iterator : ChunkIterator;      (* the shared reader *)
  in_flight : list (result R);        (* calls sent, not yet back *)
  completed : list R;                 (* results, in order of completion *)
  first_error : option exn;
  exhausted : bool;                   (* the reader has raised StopIteration *)
  pool_log : list event
}.

Variable num_workers : nat.
Variable fn : Chunk -> list event * result R.

Definition failed (p : pool) : bool :=
  match first_error p with Some _ => true | None => false end.

(** A worker is free, the reader is not at its end, nothing has failed. *)
Definition admits (p : pool) : bool :=
  negb (exhausted p) && negb (failed p) &&
  (length (in_flight p) <? num_workers)%nat.

(** Modelled from the spec: a free worker takes the next chunk and calls
    [fn] on it.  An exception of the reader other than [StopIteration] is
    the failure of the worker that met it. *)
Definition pull (p : pool) : pool :=
  match __next__ (pool_iterator p) with
  | (Ok c, it') =>
      let (sent, r) := fn c in
      mkPool it' (in_flight p ++ [r]) (completed p) (first_error p)
             (exhausted p) (pool_log p ++ sent)
  | (Raise StopIteration, it') =>
      mkPool it' (in_flight p) (completed p) (first_error p) true (pool_log p)
  | (Raise e, it') =>
      mkPool it' (in_flight p) (completed p) (Some e) (exhausted p) (pool_log p)
  end.

Definition remove_nth {X : Type} (i : nat) (l : list X) : list X :=
  firstn i l ++ skipn (S i) l.

(** Modelled from the spec: the [i]-th call in flight comes back; its result
    joins the results, or is the first error, or is dropped after one. *)
Definition finish (i : nat) (p : pool) : pool :=
  match nth_error (in_flight p) i with
  | None => p
  | Some r =>
      let rest := remove_nth i (in_flight p) in
      match first_error p, r with
      | Some _, _ =>
          mkPool (pool_iterator p) rest (completed p) (first_error p)
                 (exhausted p) (pool_log p)
      | None, Ok v =>
          mkPool (pool_iterator p) rest (completed p ++ [v]) None
                 (exhausted p) (pool_log p)
      | None, Raise e =>
          mkPool (pool_iterator p) rest (completed p) (Some e)
                 (exhausted p) (pool_log p)
      end
  end.

(** Modelled from the spec: one move, picked by [choice] among those that
    are possible; [None] when nothing can move. *)
Definition pool_step (choice : nat) (p : pool) : option pool :=
  let n := length (in_flight p) in
  if admits p then
    match (choice mod S n)%nat with
    | O => Some (pull p)
    | S i => Some (finish i p)
    end
  else
    match n with
    | O => None
    | S _ => Some (finish (choice mod n)%nat p)
    end.

Fixpoint pool_run (fuel : nat) (choices : list nat) (p : pool) : pool :=
  match fuel with
  | O => p
  | S fuel' =>
      match pool_step (hd O choices) p with
      | None => p
      | Some p' => pool_run fuel' (tl choices) p'
      end
  end.

(** What is left to do: two units for every byte not read and for the last,
    empty read, one for every call in flight. *)
Definition pool_measure (p : pool) : nat :=
  (if exhausted p || failed p then 0
   else 2 * S (length (unread_bytes (_filelike (pool_iterator p)))))
  + length (in_flight p).

Definition pool_outcome (p : pool) : outcome (list R) :=
  match in_flight p, first_error p, exhausted p with
  | [], Some e, _ => Raises e
  | [], None, true => Returns (completed p)
  | _, _, _ => Hangs
  end.

Definition pool_start (it : ChunkIterator) : pool :=
  mkPool it [] [] None false [].

(** Modelled from the spec: [pool.map(fn, iterator)], consumed to its end.
    It raises the first error, returns the results in the order of
    completion, or, in a pool without a worker, never comes back. *)
Definition pool_map (choices : list nat) (it : ChunkIterator) : M (list R) :=
  let p := pool_run (pool_measure (pool_start it)) choices (pool_start it) in
  (pool_log p, pool_outcome p).

End Pool.

Arguments pool R : clear implicits.

(** ** Source *)

(** What the service and the scheduler do during one upload. *)
Record World : Type := mkWorld {
  initiate_reply : Source -> string -> result InitResponse;
  chunk_reply : Source -> Z -> Z -> list Byte.byte -> result unit;
  commit_reply : Source -> Z -> Z -> result unit;
  show_reply : Source -> result Source;
  change_parse_option_reply : Source -> string -> bool -> result Source;
  schedule : list nat
}.

(** [(seq_num, byte_offset, end_byte_offset)], what [sendit] returns. *)
Definition Completion : Type := Z * Z * Z.

Section Source.

Variable w : World.

Definition initiate (self : Source) (content_type : string) : M InitResponse :=
  request (EInitiate self content_type) (initiate_reply w self content_type).

Definition chunk (self : Source) (seq_num byte_offset : Z) (bytes : list Byte.byte)
  : M unit :=
  request (EChunk self seq_num byte_offset bytes)
          (chunk_reply w self seq_num byte_offset bytes).

Definition commit (self : Source) (seq_num byte_offset : Z) : M unit :=
  request (ECommit self seq_num byte_offset)
          (commit_reply w self seq_num byte_offset).

Definition show (self : Source) : M Source :=
  request (EShow self) (show_reply w self).

(** [self.change_parse_option(name).to(value).run()] *)
Definition change_parse_option (self : Source) (name : string) (value : bool)
  : M Source :=
  request (EChangeParseOption self name value)
          (change_parse_option_reply w self name value).

(** The local function [sendit] of [_chunked_bytes]: the request it sends and
    what comes back of it. *)
Definition sendit (self : Source) (chunk : Chunk) : list event * result Completion :=
  let '(seq_num, byte_offset, end_byte_offset, bytes) := chunk in
  ([EChunk self seq_num byte_offset bytes],
   match chunk_reply w self seq_num byte_offset bytes with
   | Ok _ => Ok (seq_num, byte_offset, end_byte_offset)
   | Raise e => Raise e
   end).

Definition _chunked_bytes (self : Source) (file_handle : pyobj)
    (content_type : string) : M Source :=
  init <- initiate self content_type ;;
  let chunk_size := preferred_chunk_size init in
  let parallelism := preferred_upload_parallelism init in
  results <- pool_map (Z.to_nat parallelism) (sendit self) (schedule w)
               (__init__ file_handle chunk_size) ;;
  '(seq_num, byte_offset, end_byte_offset) <-
     throw (item_last (sorted (fun x : Completion => fst (fst x)) results)) ;;
  _ <- commit self seq_num end_byte_offset ;;
  show self.

(** [bytes] has no [return]: it gives [None]. *)
Definition bytes (self : Source) (file_handle : pyobj) (content_type : string)
  : M (option Source) :=
  _ <- _chunked_bytes self file_handle content_type ;;
  ret None.

Definition blob (self : Source) (file_handle : pyobj) : M Source :=
  source <- (if parse_source self
             then change_parse_option self "parse_source" false
             else ret self) ;;
  _chunked_bytes source file_handle "application/octet-stream".

Definition csv (self : Source) (file_handle : pyobj) : M Source :=
  _chunked_bytes self file_handle "text/csv".

Definition xls (self : Source) (file_handle : pyobj) : M Source :=
  _chunked_bytes self file_handle "application/vnd.ms-excel".

Definition xlsx (self : Source) (file_handle : pyobj) : M Source :=
  _chunked_bytes self file_handle
    "application/vnd.openxmlformats-officedocument.spreadsheetml.sheet".

Definition tsv (self : Source) (file_handle : pyobj) : M Source :=
  _chunked_bytes self file_handle "text/tab-separated-values".

Definition shapefile (self : Source) (file_handle : pyobj) : M Source :=
  _chunked_bytes self file_handle "application/zip".

Definition kml (self : Source) (file_handle : pyobj) : M Source :=
  _chunked_bytes self file_handle "application/vnd.google-earth.kml+xml".

Definition geojson (self : Source) (file_handle : pyobj) : M Source :=
  _chunked_bytes self file_handle "application/vnd.geo+json".

(** [df]: pandas is outside the repository; [to_csv] stands for
    [dataframe.to_csv(s, index=False); s.getvalue().encode()]. *)
Definition df {DataFrame : Type} (to_csv : DataFrame -> list Byte.byte)
    (self : Source) (dataframe : DataFrame) : M Source :=
  _chunked_bytes self (BytesObj (to_csv dataframe)) "text/csv".

End Source.

(** ** Notions used in the statements *)

(** [reads it0 taken it]: the calls of [__next__] that returned [taken], in
    this order, lead from [it0] to [it]. *)
Inductive reads (it0 : ChunkIterator) : list Chunk -> ChunkIterator -> Prop :=
| reads_nil : reads it0 [] it0
| reads_snoc taken it c it' :
    reads it0 taken it ->
    __next__ it = (Ok c, it') ->
    reads it0 (taken ++ [c]) it'.

(** The completion record of a chunk whose upload went through. *)
Definition completion_of (c : Chunk) : Completion :=
  (chunk_seq c, chunk_begin c, chunk_end c).

(** The request that uploads a chunk. *)
Definition chunk_event (self : Source) (c : Chunk) : event :=
  EChunk self (chunk_seq c) (chunk_begin c) (chunk_payload c).

Definition is_chunk (ev : event) : bool :=
  match ev with EChunk _ _ _ _ => true | _ => false end.

Definition is_commit (ev : event) : bool :=
  match ev with ECommit _ _ _ => true | _ => false end.

Definition is_show (ev : event) : bool :=
  match ev with EShow _ => true | _ => false end.

Definition is_change_parse_option (ev : event) : bool :=
  match ev with EChangeParseOption _ _ _ => true | _ => false end.

(** The sequence numbers of the chunk requests of a log, in order. *)
Fixpoint chunk_seqs (log : list event) : list Z :=
  match log with
  | [] => []
  | EChunk _ s _ _ :: log' => s :: chunk_seqs log'
  | _ :: log' => chunk_seqs log'
  end.

(** Order of two items by their sort key. *)
Definition key_le {A : Type} (key : A -> Z) (x y : A) : Prop := key x <= key y.

(** The uploads of the chunks of [cs] all go through. *)
Definition acknowledged (w : World) (self : Source) (cs : list Chunk) : Prop :=
  Forall (fun c => chunk_reply w self (chunk_seq c) (chunk_begin c)
                     (chunk_payload c) = Ok tt) cs.

(** The sort key of [_chunked_bytes]: [lambda x: x[0]]. *)
Definition by_seq_num (x : Completion) : Z := fst (fst x).

(** [x[2]] of a completion record. *)
Definition end_byte_offset_of (x : Completion) : Z := snd x.

(** ** The table of content types, as the specification words it *)

Inductive upload_kind : Type :=
| Csv | Xls | Xlsx | Tsv | Shapefile | Kml | Geojson | Blob.

Definition spec_content_type (k : upload_kind) : string :=
  match k with
  | Csv => "text/csv"
  | Xls => "application/vnd.ms-excel"
  | Xlsx => "application/vnd.openxmlformats-officedocument.spreadsheetml.sheet"
  | Tsv => "text/tab-separated-values"
  | Shapefile => "application/zip"
  | Kml => "application/vnd.google-earth.kml+xml"
  | Geojson => "application/vnd.geo+json"
  | Blob => "application/octet-stream"
  end.

Definition is_blob (k : upload_kind) : bool :=
  match k with Blob => true | _ => false end.

(** The method of [Source] that uploads a file of kind [k]. *)
Definition entry_point (w : World) (k : upload_kind)
  : Source -> pyobj -> M Source :=
  match k with
  | Csv => csv w
  | Xls => xls w
  | Xlsx => xlsx w
  | Tsv => tsv w
  | Shapefile => shapefile w
  | Kml => kml w
  | Geojson => geojson w
  | Blob => blob w
  end.

(** Every [initiate] request of a log declares the content type [ct]. *)
Definition initiates_with (ct : string) (log : list event) : Prop :=
  Forall (fun ev => match ev with
                    | EInitiate _ ct' => ct' = ct
                    | _ => True
                    end) log.

(** ** The rest of [Source], [Sources] and [Revisions]: what is computed on
    the client before a request leaves *)

(** Exceptions of the functions below. *)
Inductive builtin_error : Type :=
| ValueError
| NotImplementedError (message : string).

Inductive answer (A : Type) : Type :=
| Value (a : A)
| Error (e : builtin_error).

Arguments Value {A} a.
Arguments Error {A} e.

(** [str(n)] for an [int]: decimal digits, [-] in front of a negative
    number, no leading zero. *)
Definition str (n : Z) : string := NilZero.string_of_int (Z.to_int n).

(** [max(iterable, key=key)]: the first item whose key no later item
    exceeds; [ValueError] on an empty iterable. *)
Section Max.

Context {A : Type}.
Variable key : A -> Z.

Fixpoint max_from (best : A) (l : list A) : A :=
  match l with
  | [] => best
  | x :: l' => max_from (if key best <? key x then x else best) l'
  end.

Definition max_ (l : list A) : answer A :=
  match l with
  | [] => Error ValueError
  | x :: l' => Value (max_from x l')
  end.

End Max.

Module Sources.

(** ['https://{domain}/api/publishing/v1/source'.format(domain = ...)] *)
Definition path (domain : string) : string :=
  ("https://" ++ domain ++ "/api/publishing/v1/source")%string.

(** The URL that [lookup] gets: [self.path() + '/' + str(source_id)]. *)
Definition lookup_url (domain : string) (source_id : Z) : string :=
  (path domain ++ "/" ++ str source_id)%string.

End Sources.

Module Revisions.

(** ['https://{domain}/api/publishing/v1/revision/{fourfour}'.format(...)] *)
Definition path (domain fourfour : string) : string :=
  ("https://" ++ domain ++ "/api/publishing/v1/revision/" ++ fourfour)%string.

End Revisions.

(** [get_latest_input_schema]: [max(self.input_schemas, key = lambda s:
    s.attributes['id'])].  The class [InputSchema] is outside these sources;
    [attributes_id s] is [s.attributes['id']]. *)
Definition get_latest_input_schema {InputSchema : Type}
    (attributes_id : InputSchema -> Z) (input_schemas : list InputSchema)
  : answer InputSchema :=
  max_ attributes_id input_schemas.
(** ** The sequential iterator *)

Lemma len_nil : len [] = 0.
Proof. reflexivity. Qed.

Lemma len_cons (x : Byte.byte) (l : list Byte.byte) : len (x :: l) = 1 + len l.
Proof. unfold len. cbn [length]. lia. Qed.

Lemma len_nonneg (l : list Byte.byte) : 0 <= len l.
Proof. unfold len. lia. Qed.

Lemma len_app (l1 l2 : list Byte.byte) : len (l1 ++ l2) = len l1 + len l2.
Proof. unfold len. rewrite length_app. lia. Qed.

Lemma not__true (b : list Byte.byte) : not_ b = true <-> b = [].
Proof. destruct b; cbn; split; congruence. Qed.

Lemma not__false (b : list Byte.byte) : not_ b = false <-> 1 <= len b.
Proof.
  unfold len. destruct b; cbn [not_ length]; split; intros H;
    try congruence; lia.
Qed.

(** What one [read] of a file object gives. *)
Lemma read_file (u : list Byte.byte) (size : Z) :
  exists rd rest,
    read (FileObj u) size = (Ok rd, FileObj rest) /\
    u = rd ++ rest /\
    (0 <= size -> len rd = Z.min size (len u)) /\
    (size < 0 -> rest = []).
Proof.
  unfold read. destruct (Z.ltb_spec size 0) as [Hneg | Hpos].
  - exists u, []. rewrite app_nil_r. repeat split; intros; try lia.
  - exists (firstn (Z.to_nat size) u), (skipn (Z.to_nat size) u).
    rewrite firstn_skipn. repeat split; intros; try lia.
    unfold len. rewrite length_firstn. lia.
Qed.

(** [__next__] raises [StopIteration] exactly when the read came back
    empty. *)
Lemma next_stop_iff (self : ChunkIterator) :
  fst (__next__ self) = Raise StopIteration <->
  fst (read (_filelike self) (_chunk_size self)) = Ok [].
Proof.
  unfold __next__.
  destruct (read (_filelike self) (_chunk_size self)) as [[rd | e] f'] eqn:Hr; cbn.
  - destruct rd as [| x rd]; cbn; split; congruence.
  - split; [| congruence].
    intros He. injection He as ->.
    destruct (_filelike self); cbn in Hr.
    + destruct (_chunk_size self <? 0); discriminate.
    + discriminate.
Qed.

(** A chunk is returned exactly when the read came back with bytes, and it
    carries them. *)
Lemma next_chunk (self : ChunkIterator) (c : Chunk) (self' : ChunkIterator) :
  __next__ self = (Ok c, self') ->
  exists rd f',
    read (_filelike self) (_chunk_size self) = (Ok rd, f') /\
    1 <= len rd /\
    c = (seq_num self, byte_offset self, byte_offset self + len rd, rd) /\
    self' = mkChunkIterator f' (_chunk_size self)
              (seq_num self + 1) (byte_offset self + len rd).
Proof.
  unfold __next__.
  destruct (read (_filelike self) (_chunk_size self)) as [[rd | e] f'];
    [| discriminate].
  destruct (not_ rd) eqn:Hn; [discriminate |].
  cbn. intros H. injection H as <- <-.
  exists rd, f'. apply not__false in Hn. auto.
Qed.

(** The measure of the chunk count: [ceil(L / C)]. *)
Definition chunk_count (L C : Z) : Z := (L + C - 1) / C.

Lemma chunk_count_last (L C : Z) : 1 <= L <= C -> chunk_count L C = 1.
Proof.
  intros H. unfold chunk_count. symmetry.
  apply Z.div_unique with (r := L - 1); lia.
Qed.

Lemma chunk_count_more (L C : Z) :
  1 <= C -> C <= L -> chunk_count L C = 1 + chunk_count (L - C) C.
Proof.
  intros HC HL. unfold chunk_count.
  replace (L + C - 1) with ((L - C + C - 1) + 1 * C) by lia.
  rewrite Z.div_add by lia. lia.
Qed.

Lemma chunk_count_zero (C : Z) : 1 <= C -> chunk_count 0 C = 0.
Proof.
  intros HC. unfold chunk_count. apply Z.div_small. lia.
Qed.

Lemma chunk_count_multiple (q C : Z) :
  1 <= C -> 0 <= q -> chunk_count (q * C) C = q.
Proof.
  intros HC Hq. unfold chunk_count. symmetry.
  apply Z.div_unique with (r := C - 1); lia.
Qed.

(** The invariant of the loop [for chunk in ChunkIterator(f, C)], from any
    state of the iterator over a file object. *)
Lemma collect_file (fuel : nat) :
  forall (u : list Byte.byte) (C s b : Z),
    C <> 0 -> (length u < fuel)%nat ->
    exists cs,
      collect fuel (mkChunkIterator (FileObj u) C s b) =
        Some (Ok cs, mkChunkIterator (FileObj []) C
                       (s + Z.of_nat (length cs)) (b + len u)) /\
      tiles b (b + len u) cs /\
      numbered s cs /\
      Forall (fun c => len (chunk_payload c) = chunk_end c - chunk_begin c /\
                       1 <= len (chunk_payload c) /\
                       (1 <= C -> len (chunk_payload c) <= C)) cs /\
      payloads cs = u /\
      (1 <= C -> Z.of_nat (length cs) = chunk_count (len u) C).
Proof.
  induction fuel as [| fuel IH]; intros u C s b HC Hfuel; [lia |].
  cbn [collect].
  destruct (read_file u C) as (rd & rest & Hread & Hu & Hlen & Hall).
  unfold __next__. cbn [_filelike _chunk_size seq_num byte_offset].
  rewrite Hread.
  destruct (not_ rd) eqn:Hn.
  - (* the read came back empty: the stream is at its end *)
    apply not__true in Hn. subst rd. cbn [app] in Hu. subst rest.
    assert (Hnil : u = []).
    { destruct (Z.ltb_spec C 0) as [Hneg | Hpos].
      - unfold read in Hread. apply Z.ltb_lt in Hneg. rewrite Hneg in Hread.
        congruence.
      - specialize (Hlen Hpos). rewrite len_nil in Hlen.
        destruct u as [| x u]; [reflexivity |].
        rewrite len_cons in Hlen. pose proof (len_nonneg u). lia. }
    subst u. exists []. cbn [length Z.of_nat tiles numbered payloads map concat].
    rewrite len_nil, !Z.add_0_r.
    repeat split; auto. intros. now rewrite chunk_count_zero.
  - (* a chunk *)
    apply not__false in Hn.
    assert (Hshort : (length rest < fuel)%nat).
    { subst u. rewrite length_app in Hfuel. unfold len in Hn. lia. }
    destruct (IH rest C (s + 1) (b + len rd) HC Hshort)
      as (cs & Hcs & Htiles & Hnum & Hpay & Hcat & Hcount).
    rewrite Hcs.
    exists ((s, b, b + len rd, rd) :: cs).
    assert (Hsum : len u = len rd + len rest) by (subst u; apply len_app).
    split; [| split; [| split; [| split; [| split]]]].
    + cbn [length]. rewrite Nat2Z.inj_succ. do 3 f_equal; lia.
    + cbn [tiles chunk_begin chunk_end]. rewrite Hsum.
      replace (b + (len rd + len rest)) with (b + len rd + len rest) by lia.
      repeat split; auto. lia.
    + cbn [numbered chunk_seq]. auto.
    + constructor; [| exact Hpay].
      cbn [chunk_payload chunk_begin chunk_end].
      split; [lia | split; [lia | intros HC1; rewrite Hlen by lia; lia]].
    + unfold payloads in *. cbn [map concat chunk_payload]. rewrite Hcat. auto.
    + intros HC1. specialize (Hcount HC1). specialize (Hlen ltac:(lia)).
      cbn [length]. rewrite Nat2Z.inj_succ, Hcount.
      pose proof (len_nonneg rest).
      destruct (Z.le_gt_cases C (len u)) as [Hge | Hlt].
      * rewrite (chunk_count_more (len u) C) by lia.
        replace (len u - C) with (len rest) by lia. lia.
      * assert (len rest = 0) by lia.
        rewrite (chunk_count_last (len u) C) by lia.
        replace (len rest) with 0 by lia.
        rewrite chunk_count_zero by lia. lia.
Qed.

(** ** The iterator as the pool sees it *)

(** A call that raises leaves the iterator as it was. *)
Lemma next_raise_same (it it' : ChunkIterator) (e : exn) :
  __next__ it = (Raise e, it') -> it' = it.
Proof.
  destruct it as [f C s b]. unfold __next__. cbn [_filelike _chunk_size seq_num byte_offset].
  destruct f as [u | v].
  - destruct (read_file u C) as (rd & rest & Hread & Hu & Hlen & Hall).
    rewrite Hread. destruct (not_ rd) eqn:Hn; [| discriminate].
    apply not__true in Hn. subst rd. cbn [app] in Hu. subst rest.
    intros H. injection H as _ <-. reflexivity.
  - cbn. intros H. injection H as _ <-. reflexivity.
Qed.

(** A call that returns a chunk takes bytes off the file. *)
Lemma next_chunk_shrinks (it it' : ChunkIterator) (c : Chunk) :
  __next__ it = (Ok c, it') ->
  (length (unread_bytes (_filelike it')) < length (unread_bytes (_filelike it)))%nat.
Proof.
  intros H. apply next_chunk in H as (rd & f' & Hread & Hrd & _ & ->).
  cbn [_filelike]. destruct (_filelike it) as [u | v]; [| discriminate].
  destruct (read_file u (_chunk_size it)) as (rd' & rest & Hread' & Hu & _).
  rewrite Hread in Hread'. injection Hread' as <- ->.
  cbn [unread_bytes]. subst u. rewrite length_app. unfold len in Hrd. lia.
Qed.

Lemma collect_deterministic (f1 : nat) :
  forall (f2 : nat) (it : ChunkIterator) r1 r2,
    collect f1 it = Some r1 -> collect f2 it = Some r2 -> r1 = r2.
Proof.
  induction f1 as [| f1 IH]; intros f2 it r1 r2 H1 H2; [discriminate |].
  destruct f2 as [| f2]; [discriminate |].
  cbn [collect] in H1, H2.
  destruct (__next__ it) as [[c | e] it'].
  - destruct (collect f1 it') as [q1 |] eqn:E1; [| discriminate].
    destruct (collect f2 it') as [q2 |] eqn:E2;
      [| destruct q1 as [[? | ?] ?]; discriminate].
    assert (q1 = q2) by (eapply IH; eauto). subst q2.
    destruct q1 as [[cs | e] it'']; congruence.
  - destruct e; congruence.
Qed.

(** The chunks read so far, followed by those a loop would still collect,
    are what a loop collects from the start. *)
Lemma reads_collect (it0 it : ChunkIterator) (taken : list Chunk) :
  reads it0 taken it ->
  forall fuel cs fin,
    collect fuel it = Some (Ok cs, fin) ->
    collect (fuel + length taken) it0 = Some (Ok (taken ++ cs), fin).
Proof.
  induction 1 as [| taken it c it' Hreads IH Hnext]; intros fuel cs fin Hc.
  - cbn [length app]. now rewrite Nat.add_0_r.
  - rewrite length_app, <- app_assoc. cbn [length app].
    replace (fuel + (length taken + 1))%nat with (S fuel + length taken)%nat by lia.
    apply IH. cbn [collect]. rewrite Hnext, Hc. reflexivity.
Qed.

(** Reading keeps the numbering and the offsets going. *)
Lemma reads_state (it0 it : ChunkIterator) (taken : list Chunk) :
  reads it0 taken it ->
  _chunk_size it = _chunk_size it0 /\
  seq_num it = seq_num it0 + Z.of_nat (length taken) /\
  map chunk_seq taken =
    map (fun i => seq_num it0 + Z.of_nat i) (seq 0 (length taken)).
Proof.
  induction 1 as [| taken it c it' Hreads (IHC & IHs & IHm) Hnext].
  - cbn. repeat split; lia.
  - apply next_chunk in Hnext as (rd & f' & _ & _ & -> & ->).
    cbn [_chunk_size seq_num]. rewrite length_app. cbn [length].
    repeat split; [assumption | lia |].
    rewrite map_app, Nat.add_1_r, seq_S, map_app, IHm. cbn [map chunk_seq].
    now rewrite IHs.
Qed.

(** ** The pool *)

Section PoolFacts.

Context {R : Type}.
Variable num_workers : nat.
Variable fn : Chunk -> list event * result R.
Variable it0 : ChunkIterator.


(** What holds of the pool at every moment, [taken] being the chunks pulled
    so far. *)
Definition pool_inv (p : pool R) (taken : list Chunk) : Prop :=
  reads it0 taken (pool_iterator p) /\
  pool_log p = flat_map (fun c => fst (fn c)) taken /\
  (first_error p = None ->
   Permutation (map (fun c => snd (fn c)) taken)
               (in_flight p ++ map Ok (completed p))) /\
  (forall e, first_error p = Some e ->
     (exists c, In c taken /\ snd (fn c) = Raise e) \/
     (fst (__next__ (pool_iterator p)) = Raise e /\ e <> StopIteration)) /\
  (exhausted p = true ->
   fst (__next__ (pool_iterator p)) = Raise StopIteration).

Lemma pool_inv_start : pool_inv (@pool_start R it0) [].
Proof.
  unfold pool_inv, pool_start. cbn.
  repeat split; try constructor; intros; discriminate.
Qed.

Lemma admits_true (p : pool R) :
  admits num_workers p = true ->
  exhausted p = false /\ first_error p = None /\
  (length (in_flight p) < num_workers)%nat.
Proof.
  unfold admits, failed. intros H.
  apply andb_prop in H as [H Hw]. apply andb_prop in H as [Hx Hf].
  apply Nat.ltb_lt in Hw.
  destruct (exhausted p); [discriminate |].
  destruct (first_error p); [discriminate |]. auto.
Qed.

Lemma pull_inv (p : pool R) (taken : list Chunk) :
  pool_inv p taken -> admits num_workers p = true ->
  exists taken', pool_inv (pull fn p) taken'.
Proof.
  intros (Hreads & Hlog & Hperm & Herr & Hex) Hadm.
  apply admits_true in Hadm as (Hx & Hnone & _).
  unfold pull.
  destruct (__next__ (pool_iterator p)) as [[c | e] it'] eqn:Hnext.
  - destruct (fn c) as [sent r] eqn:Hfn.
    exists (taken ++ [c]). unfold pool_inv. cbn.
    split; [econstructor; eauto |].
    split; [rewrite flat_map_app, Hlog; cbn; rewrite Hfn, app_nil_r; reflexivity |].
    split; [| split].
    + intros _. rewrite map_app. cbn [map]. rewrite Hfn. cbn [snd].
      rewrite <- app_assoc.
      specialize (Hperm Hnone).
      transitivity ((in_flight p ++ map Ok (completed p)) ++ [r]).
      * now apply Permutation_app_tail.
      * rewrite <- app_assoc. apply Permutation_app_head, Permutation_app_comm.
    + intros e He. congruence.
    + congruence.
  - assert (it' = pool_iterator p) by (eapply next_raise_same; eauto).
    subst it'.
    destruct e; exists taken; unfold pool_inv;
      cbn [pool_iterator in_flight completed first_error exhausted pool_log];
      (split; [assumption |]); (split; [assumption |]).
    + split; [assumption |]. split; [intros e He; congruence |].
      intros _. now rewrite Hnext.
    + split; [discriminate |]. split; [| intros Hx'; congruence].
      intros e He. injection He as <-. right. rewrite Hnext. split; [reflexivity | discriminate].
    + split; [discriminate |]. split; [| intros Hx'; congruence].
      intros e He. injection He as <-. right. rewrite Hnext. split; [reflexivity | discriminate].
    + split; [discriminate |]. split; [| intros Hx'; congruence].
      intros e He. injection He as <-. right. rewrite Hnext. split; [reflexivity | discriminate].
Qed.

Lemma remove_nth_split {X : Type} (i : nat) (l : list X) (x : X) :
  nth_error l i = Some x ->
  exists l1 l2, l = l1 ++ x :: l2 /\ remove_nth i l = l1 ++ l2.
Proof.
  intros H. apply nth_error_split in H as (l1 & l2 & -> & <-).
  exists l1, l2. split; [reflexivity |]. unfold remove_nth.
  rewrite firstn_app, firstn_all, Nat.sub_diag. cbn [firstn].
  rewrite app_nil_r. f_equal.
  replace (S (length l1)) with (length l1 + 1)%nat by lia.
  rewrite skipn_app, skipn_all2 by lia.
  replace (length l1 + 1 - length l1)%nat with 1%nat by lia.
  reflexivity.
Qed.

Lemma finish_inv (i : nat) (p : pool R) (taken : list Chunk) :
  pool_inv p taken -> pool_inv (finish i p) taken.
Proof.
  intros (Hreads & Hlog & Hperm & Herr & Hex).
  unfold finish.
  destruct (nth_error (in_flight p) i) as [r |] eqn:Hnth;
    [| unfold pool_inv; auto].
  destruct (remove_nth_split _ _ _ Hnth) as (l1 & l2 & Hfl & Hrest).
  rewrite Hrest.
  destruct (first_error p) as [e0 |] eqn:Hfe.
  - unfold pool_inv.
    cbn [pool_iterator in_flight completed first_error exhausted pool_log].
    split; [assumption |]. split; [assumption |].
    split; [discriminate |]. split; assumption.
  - specialize (Hperm eq_refl). rewrite Hfl in Hperm.
    destruct r as [v | e]; unfold pool_inv;
      cbn [pool_iterator in_flight completed first_error exhausted pool_log];
      (split; [assumption |]); (split; [assumption |]).
    + split; [| split; [discriminate | assumption]].
      intros _. rewrite Hperm, map_app. cbn [map].
      rewrite <- !app_assoc. apply Permutation_app_head.
      cbn [app]. symmetry.
      transitivity (l2 ++ Ok v :: map Ok (completed p)).
      * apply Permutation_app_head. symmetry. apply Permutation_cons_append.
      * symmetry. apply (Permutation_middle l2 (map Ok (completed p)) (Ok v)).
    + split; [discriminate |]. split; [| assumption].
      intros e' He'. injection He' as <-. left.
      assert (Hin : In (Raise e) (map (fun c => snd (fn c)) taken)).
      { eapply Permutation_in; [symmetry; exact Hperm |].
        apply in_or_app. left. apply in_or_app. right. now left. }
      apply in_map_iff in Hin as (c & Hc & Hin). eauto.
Qed.

Lemma pool_step_inv (choice : nat) (p p' : pool R) (taken : list Chunk) :
  pool_inv p taken -> pool_step num_workers fn choice p = Some p' ->
  exists taken', pool_inv p' taken'.
Proof.
  intros Hinv. unfold pool_step.
  destruct (admits num_workers p) eqn:Hadm.
  - destruct (choice mod S (length (in_flight p)))%nat as [| i];
      intros H; injection H as <-.
    + eapply pull_inv; eauto.
    + exists taken. now apply finish_inv.
  - destruct (length (in_flight p)); [discriminate |].
    intros H; injection H as <-. exists taken. now apply finish_inv.
Qed.

Lemma pool_run_inv (fuel : nat) :
  forall (choices : list nat) (p : pool R) (taken : list Chunk),
    pool_inv p taken ->
    exists taken', pool_inv (pool_run num_workers fn fuel choices p) taken'.
Proof.
  induction fuel as [| fuel IH]; intros choices p taken Hinv; cbn [pool_run].
  - eauto.
  - destruct (pool_step num_workers fn (hd 0%nat choices) p) as [p' |] eqn:Hstep; [| eauto].
    destruct (pool_step_inv _ _ _ _ Hinv Hstep) as (taken' & Hinv').
    eapply IH; eauto.
Qed.

(** *** Every possible move is some choice *)

Lemma choose_pull (p : pool R) :
  admits num_workers p = true ->
  pool_step num_workers fn 0%nat p = Some (pull fn p).
Proof.
  intros Hadm. unfold pool_step. rewrite Hadm.
  now rewrite Nat.Div0.mod_0_l.
Qed.

Lemma choose_finish (i : nat) (p : pool R) :
  (i < length (in_flight p))%nat ->
  exists choice, pool_step num_workers fn choice p = Some (finish i p).
Proof.
  intros Hi. unfold pool_step. destruct (admits num_workers p).
  - exists (S i). rewrite Nat.mod_small by lia. reflexivity.
  - exists i. destruct (length (in_flight p)) as [| n] eqn:Hn; [lia |].
    rewrite Nat.mod_small by lia. reflexivity.
Qed.

(** *** Every run of the pool comes to an end *)

Lemma finish_measure (i : nat) (p : pool R) :
  (i < length (in_flight p))%nat ->
  (pool_measure (finish i p) < pool_measure p)%nat.
Proof.
  intros Hi. unfold finish.
  destruct (nth_error (in_flight p) i) as [r |] eqn:Hnth;
    [| apply nth_error_None in Hnth; lia].
  destruct (remove_nth_split _ _ _ Hnth) as (l1 & l2 & Hfl & Hrest).
  rewrite Hrest. unfold pool_measure, failed.
  destruct (first_error p) as [e0 |]; [| destruct r as [v | e]];
    cbn [pool_iterator in_flight completed first_error exhausted];
    rewrite Hfl, !length_app; cbn [length];
    destruct (exhausted p); cbn [orb]; lia.
Qed.

Lemma pull_measure (p : pool R) :
  admits num_workers p = true ->
  (pool_measure (pull fn p) < pool_measure p)%nat.
Proof.
  intros Hadm. apply admits_true in Hadm as (Hx & Hnone & _).
  unfold pull, pool_measure, failed.
  destruct (__next__ (pool_iterator p)) as [[c | e] it'] eqn:Hnext.
  - apply next_chunk_shrinks in Hnext.
    destruct (fn c) as [sent r].
    cbn [pool_iterator in_flight completed first_error exhausted].
    rewrite Hx, Hnone, length_app. cbn [orb length]. lia.
  - destruct e;
      cbn [pool_iterator in_flight completed first_error exhausted];
      rewrite ?Hx, ?Hnone; cbn [orb]; rewrite ?orb_true_r; lia.
Qed.

Lemma pool_step_measure (choice : nat) (p p' : pool R) :
  pool_step num_workers fn choice p = Some p' ->
  (pool_measure p' < pool_measure p)%nat.
Proof.
  unfold pool_step. destruct (admits num_workers p) eqn:Hadm.
  - destruct (choice mod S (length (in_flight p)))%nat as [| i] eqn:Hmod;
      intros H; injection H as <-.
    + now apply pull_measure.
    + apply finish_measure.
      pose proof (Nat.mod_upper_bound choice (S (length (in_flight p)))).
      lia.
  - destruct (length (in_flight p)) as [| n] eqn:Hn; [discriminate |].
    intros H; injection H as <-. apply finish_measure.
    pose proof (Nat.mod_upper_bound choice (S n)). lia.
Qed.

(** With as many moves as the measure, the run ends where nothing can
    move: no worker may pull and no call is in flight. *)
Lemma pool_run_quiet (fuel : nat) :
  forall (choices : list nat) (p : pool R),
    (pool_measure p <= fuel)%nat ->
    admits num_workers (pool_run num_workers fn fuel choices p) = false /\
    in_flight (pool_run num_workers fn fuel choices p) = [].
Proof.
  induction fuel as [| fuel IH]; intros choices p Hm; cbn [pool_run].
  - unfold pool_measure in Hm.
    assert (Hfl : in_flight p = []) by (destruct (in_flight p); [reflexivity | cbn in Hm; lia]).
    split; [| assumption].
    unfold admits. destruct (exhausted p); [reflexivity |].
    destruct (failed p); [reflexivity |]. cbn [orb] in Hm. lia.
  - destruct (pool_step num_workers fn (hd 0%nat choices) p) as [p' |] eqn:Hstep.
    + apply IH. apply pool_step_measure in Hstep. lia.
    + unfold pool_step in Hstep.
      destruct (admits num_workers p).
      * destruct (hd 0%nat choices mod S (length (in_flight p)))%nat; discriminate.
      * destruct (in_flight p); [auto | discriminate].
Qed.

(** With a worker at all, that end is the end of the reader or a failure:
    [map] returns or raises. *)
Lemma quiet_outcome (p : pool R) :
  (1 <= num_workers)%nat ->
  admits num_workers p = false -> in_flight p = [] ->
  (exists e, first_error p = Some e /\ pool_outcome p = Raises e) \/
  (first_error p = None /\ exhausted p = true /\
   pool_outcome p = Returns (completed p)).
Proof.
  intros Hw Hadm Hfl. unfold admits, failed in Hadm. unfold pool_outcome.
  rewrite Hfl in *. cbn [length] in Hadm.
  destruct (first_error p) as [e |]; [left; eauto |].
  destruct (exhausted p); [right; auto |].
  cbn [negb andb] in Hadm. apply Nat.ltb_ge in Hadm. lia.
Qed.

(** [map] hangs only in a pool without a worker. *)
Lemma quiet_outcome_cases (p : pool R) :
  in_flight p = [] ->
  pool_outcome p =
    match first_error p with
    | Some e => Raises e
    | None => if exhausted p then Returns (completed p) else Hangs
    end.
Proof.
  intros Hfl. unfold pool_outcome. rewrite Hfl.
  destruct (first_error p); [reflexivity |]. destruct (exhausted p); reflexivity.
Qed.

(** What [pool.map] comes to, for every list of choices. *)
Lemma pool_map_final (choices : list nat) :
  exists (p : pool R) (taken : list Chunk),
    pool_map num_workers fn choices it0 = (pool_log p, pool_outcome p) /\
    pool_inv p taken /\
    admits num_workers p = false /\
    in_flight p = [].
Proof.
  unfold pool_map.
  pose (p0 := @pool_start R it0).
  destruct (pool_run_inv (pool_measure p0) choices p0 [] pool_inv_start)
    as (taken & Hinv).
  destruct (pool_run_quiet (pool_measure p0) choices p0 (Nat.le_refl _))
    as (Hadm & Hfl).
  exists (pool_run num_workers fn (pool_measure p0) choices p0), taken.
  auto.
Qed.

End PoolFacts.

(** ** [sorted] and [[-1]] *)

Section SortingFacts.

Context {A : Type}.
Variable key : A -> Z.

Lemma insert_sorted_perm (x : A) (l : list A) :
  Permutation (insert_sorted key x l) (x :: l).
Proof.
  induction l as [| y l IH]; cbn [insert_sorted]; [reflexivity |].
  destruct (key x <=? key y); [reflexivity |].
  rewrite IH. apply perm_swap.
Qed.

Lemma sorted_perm (l : list A) : Permutation (sorted key l) l.
Proof.
  induction l as [| x l IH]; cbn [sorted fold_right]; [reflexivity |].
  fold (sorted key l). rewrite insert_sorted_perm. now constructor.
Qed.

Lemma insert_sorted_ordered (x : A) (l : list A) :
  StronglySorted (key_le key) l -> StronglySorted (key_le key) (insert_sorted key x l).
Proof.
  induction 1 as [| y l Hs IH Hy]; cbn [insert_sorted].
  - repeat constructor.
  - destruct (Z.leb_spec (key x) (key y)) as [Hle | Hgt].
    + constructor; [now constructor |].
      constructor; [assumption |].
      eapply Forall_impl; [| exact Hy]. unfold key_le. intros; lia.
    + constructor; [assumption |].
      eapply Permutation_Forall; [symmetry; apply insert_sorted_perm |].
      constructor; [unfold key_le; lia | assumption].
Qed.

Lemma sorted_ordered (l : list A) : StronglySorted (key_le key) (sorted key l).
Proof.
  induction l as [| x l IH]; cbn [sorted fold_right]; [constructor |].
  now apply insert_sorted_ordered.
Qed.

(** The last item of an ordered list has the greatest key. *)
Lemma item_last_ordered (l : list A) :
  StronglySorted (key_le key) l -> l <> [] ->
  exists r, item_last l = Ok r /\ In r l /\ forall x, In x l -> key x <= key r.
Proof.
  induction 1 as [| y l Hs IH Hy]; intros Hne; [congruence |].
  destruct l as [| z l'].
  - exists y. cbn. repeat split; auto. intros x [<- | []]. lia.
  - destruct IH as (r & Hlast & Hin & Hmax); [discriminate |].
    exists r. split; [exact Hlast |]. split; [now right |].
    intros x [<- | Hx]; [| auto].
    rewrite Forall_forall in Hy. apply (Hy r Hin).
Qed.

(** [sorted(l, key)[-1]] is an item of [l] of greatest key, and raises
    [IndexError] on the empty list only. *)
Lemma sorted_last_max (l : list A) :
  l <> [] ->
  exists r, item_last (sorted key l) = Ok r /\ In r l /\
            forall x, In x l -> key x <= key r.
Proof.
  intros Hne.
  destruct (item_last_ordered (sorted key l) (sorted_ordered l))
    as (r & Hlast & Hin & Hmax).
  - intros Hnil. apply Hne. apply Permutation_nil.
    rewrite <- Hnil. apply sorted_perm.
  - exists r. split; [exact Hlast |]. split.
    + eapply Permutation_in; [apply sorted_perm | exact Hin].
    + intros x Hx. apply Hmax.
      eapply Permutation_in; [symmetry; apply sorted_perm | exact Hx].
Qed.

End SortingFacts.

(** ** Chunk lists *)

Lemma last_In {X : Type} (l : list X) (d : X) : l <> [] -> In (last l d) l.
Proof.
  intros Hne. destruct (@exists_last _ l Hne) as (l' & x & ->).
  rewrite last_last. apply in_or_app. right. now left.
Qed.

Lemma tiles_nonempty (a b : Z) (cs : list Chunk) :
  tiles a b cs -> a < b -> cs <> [].
Proof. destruct cs; cbn; [lia | discriminate]. Qed.

Lemma tiles_last (cs : list Chunk) :
  forall (a b : Z) (d : Chunk),
    tiles a b cs -> cs <> [] -> chunk_end (last cs d) = b.
Proof.
  induction cs as [| c cs IH]; intros a b d Ht Hne; [congruence |].
  cbn [tiles] in Ht. destruct Ht as (_ & _ & Ht).
  destruct cs as [| c' cs'].
  - cbn in *. lia.
  - change (last (c :: c' :: cs') d) with (last (c' :: cs') d).
    eapply IH; [exact Ht | discriminate].
Qed.

Lemma numbered_lower (cs : list Chunk) :
  forall (s : Z) (c : Chunk), numbered s cs -> In c cs -> s <= chunk_seq c.
Proof.
  induction cs as [| c0 cs IH]; intros s c Hn Hin; [destruct Hin |].
  cbn [numbered] in Hn. destruct Hn as (Hs & Hn).
  destruct Hin as [<- | Hin]; [lia |].
  specialize (IH _ _ Hn Hin). lia.
Qed.

Lemma numbered_last (cs : list Chunk) :
  forall (s : Z) (d : Chunk),
    numbered s cs -> cs <> [] ->
    chunk_seq (last cs d) = s + Z.of_nat (length cs) - 1.
Proof.
  induction cs as [| c cs IH]; intros s d Hn Hne; [congruence |].
  cbn [numbered] in Hn. destruct Hn as (Hs & Hn).
  destruct cs as [| c' cs'].
  - cbn. lia.
  - change (last (c :: c' :: cs') d) with (last (c' :: cs') d).
    rewrite (IH (s + 1) d Hn) by discriminate. cbn [length]. lia.
Qed.

(** Only the last chunk has a sequence number as great as the last one's. *)
Lemma numbered_last_only (cs : list Chunk) :
  forall (s : Z) (d c : Chunk),
    numbered s cs -> In c cs ->
    chunk_seq (last cs d) <= chunk_seq c -> c = last cs d.
Proof.
  induction cs as [| c0 cs IH]; intros s d c Hn Hin Hle; [destruct Hin |].
  cbn [numbered] in Hn. destruct Hn as (Hs & Hn).
  destruct cs as [| c' cs'].
  - destruct Hin as [<- | []]. reflexivity.
  - change (last (c0 :: c' :: cs') d) with (last (c' :: cs') d) in *.
    destruct Hin as [<- | Hin].
    + assert (Hl : s + 1 <= chunk_seq (last (c' :: cs') d)).
      { apply numbered_lower with (cs := c' :: cs'); [exact Hn |].
        apply last_In. discriminate. }
      lia.
    + eapply IH; eauto.
Qed.

(** The decision of the coordinator: whatever the order of the completion
    records, [sorted(results, key=lambda x: x[0])[-1]] is the record of the
    last chunk read. *)
Lemma last_of_sorted_completions (cs : list Chunk) (results : list Completion)
    (s : Z) (d : Chunk) :
  numbered s cs -> cs <> [] ->
  Permutation results (map completion_of cs) ->
  item_last (sorted (fun x : Completion => fst (fst x)) results) =
    Ok (completion_of (last cs d)).
Proof.
  intros Hn Hne Hperm.
  assert (Hres : results <> []).
  { intros ->. apply Permutation_nil in Hperm.
    destruct cs; [congruence | discriminate]. }
  destruct (sorted_last_max (fun x : Completion => fst (fst x)) results Hres)
    as (r & Hlast & Hin & Hmax).
  rewrite Hlast. f_equal.
  assert (Hr : In r (map completion_of cs))
    by (eapply Permutation_in; eauto).
  apply in_map_iff in Hr as (c & <- & Hc).
  f_equal. eapply numbered_last_only; eauto.
  assert (Hl : In (completion_of (last cs d)) results).
  { eapply Permutation_in; [symmetry; exact Hperm |].
    apply in_map. now apply last_In. }
  apply Hmax in Hl. exact Hl.
Qed.

(** ** Reading from a file object and from a [bytes] value *)

Lemma next_bytes (v : list Byte.byte) (C s b : Z) :
  __next__ (mkChunkIterator (BytesObj v) C s b) =
    (Raise (AttributeError "read"), mkChunkIterator (BytesObj v) C s b).
Proof. reflexivity. Qed.

Lemma next_file_outcome (u : list Byte.byte) (C s b : Z) :
  (exists c it', __next__ (mkChunkIterator (FileObj u) C s b) = (Ok c, it')) \/
  fst (__next__ (mkChunkIterator (FileObj u) C s b)) = Raise StopIteration.
Proof.
  unfold __next__. cbn [_filelike _chunk_size].
  destruct (read_file u C) as (rd & rest & -> & _).
  destruct (not_ rd); [right; reflexivity | left; eauto].
Qed.

Lemma next_file_stays (u : list Byte.byte) (C s b : Z) (r : result Chunk)
    (it' : ChunkIterator) :
  __next__ (mkChunkIterator (FileObj u) C s b) = (r, it') ->
  exists u' s' b', it' = mkChunkIterator (FileObj u') C s' b'.
Proof.
  unfold __next__. cbn [_filelike _chunk_size seq_num byte_offset].
  destruct (read_file u C) as (rd & rest & -> & _).
  destruct (not_ rd); intros H; injection H as _ <-; eauto.
Qed.

Lemma reads_file (u : list Byte.byte) (C : Z) (taken : list Chunk)
    (it : ChunkIterator) :
  reads (__init__ (FileObj u) C) taken it ->
  exists u' s' b', it = mkChunkIterator (FileObj u') C s' b'.
Proof.
  induction 1 as [| taken it c it' Hreads (u' & s' & b' & ->) Hnext].
  - unfold __init__. eauto.
  - eapply next_file_stays; eauto.
Qed.

Lemma reads_bytes (v : list Byte.byte) (C : Z) (taken : list Chunk)
    (it : ChunkIterator) :
  reads (__init__ (BytesObj v) C) taken it ->
  taken = [] /\ it = __init__ (BytesObj v) C.
Proof.
  induction 1 as [| taken it c it' Hreads (-> & ->) Hnext]; [auto |].
  unfold __init__ in Hnext. rewrite next_bytes in Hnext. discriminate.
Qed.

(** The chunks the pool has pulled are the first of those a loop collects,
    and all of them once the reader is at its end. *)
Lemma reads_prefix (u : list Byte.byte) (C : Z) (taken cs : list Chunk)
    (it fin : ChunkIterator) :
  C <> 0 ->
  chunks_of u C = Some (Ok cs, fin) ->
  reads (__init__ (FileObj u) C) taken it ->
  exists rest,
    cs = taken ++ rest /\
    (fst (__next__ it) = Raise StopIteration -> rest = []).
Proof.
  intros HC Hcs Hreads.
  destruct (reads_file _ _ _ _ Hreads) as (u' & s' & b' & ->).
  destruct (collect_file (S (length u')) u' C s' b' HC (Nat.lt_succ_diag_r _))
    as (rest & Hcol & _).
  pose proof (reads_collect _ _ _ Hreads _ _ _ Hcol) as Hall.
  pose proof (collect_deterministic _ _ _ _ _ Hcs Hall) as Heq.
  injection Heq as -> _.
  exists rest. split; [reflexivity |].
  intros Hstop. cbn [collect] in Hcol.
  destruct (__next__ (mkChunkIterator (FileObj u') C s' b')) as [[c | e] it'];
    cbn [fst] in Hstop; [discriminate |].
  injection Hstop as ->. now injection Hcol as <-.
Qed.

(** ** The upload *)

Section UploadFacts.

Variable w : World.
Variable self : Source.

Lemma sendit_sent (c : Chunk) : fst (sendit w self c) = [chunk_event self c].
Proof. destruct c as [[[s b] e] p]. reflexivity. Qed.

Lemma sendit_back (c : Chunk) :
  snd (sendit w self c) =
    match chunk_reply w self (chunk_seq c) (chunk_begin c) (chunk_payload c) with
    | Ok _ => Ok (completion_of c)
    | Raise e => Raise e
    end.
Proof. destruct c as [[[s b] e] p]. reflexivity. Qed.

Lemma sendit_log (taken : list Chunk) :
  flat_map (fun c => fst (sendit w self c)) taken = map (chunk_event self) taken.
Proof.
  induction taken as [| c taken IH]; [reflexivity |].
  cbn [flat_map map]. now rewrite sendit_sent, IH.
Qed.

Lemma chunked_bytes_no_session (file_handle : pyobj) (content_type : string)
    (e : exn) :
  initiate_reply w self content_type = Raise e ->
  _chunked_bytes w self file_handle content_type =
    ([EInitiate self content_type], Raises e).
Proof.
  intros Hinit. unfold _chunked_bytes, initiate, request, bind.
  now rewrite Hinit.
Qed.

(** The shape of every run after a successful [initiate]: the chunk requests
    of the chunks pulled, then, if [map] returned, the commit decision. *)
Lemma chunked_bytes_run (file_handle : pyobj) (content_type : string)
    (init : InitResponse) :
  initiate_reply w self content_type = Ok init ->
  exists (p : pool Completion) (taken : list Chunk),
    pool_inv (sendit w self)
      (__init__ file_handle (preferred_chunk_size init)) p taken /\
    admits (Z.to_nat (preferred_upload_parallelism init)) p = false /\
    in_flight p = [] /\
    _chunked_bytes w self file_handle content_type =
      let sent := EInitiate self content_type :: map (chunk_event self) taken in
      match pool_outcome p with
      | Returns results =>
          match item_last (sorted (fun x : Completion => fst (fst x)) results) with
          | Raise e => (sent, Raises e)
          | Ok (seq_num, _, end_byte_offset) =>
              match commit_reply w self seq_num end_byte_offset with
              | Raise e => (sent ++ [ECommit self seq_num end_byte_offset], Raises e)
              | Ok _ =>
                  (sent ++ [ECommit self seq_num end_byte_offset; EShow self],
                   match show_reply w self with
                   | Ok snapshot => Returns snapshot
                   | Raise e => Raises e
                   end)
              end
          end
      | Raises e => (sent, Raises e)
      | Hangs => (sent, Hangs)
      end.
Proof.
  intros Hinit.
  destruct (pool_map_final (Z.to_nat (preferred_upload_parallelism init))
              (sendit w self)
              (__init__ file_handle (preferred_chunk_size init)) (schedule w))
    as (p & taken & Hmap & Hinv & Hadm & Hfl).
  exists p, taken. repeat (split; [assumption |]).
  unfold _chunked_bytes, initiate, request, bind. rewrite Hinit, Hmap.
  destruct Hinv as (_ & Hlog & _). rewrite Hlog, sendit_log.
  cbn [app].
  destruct (pool_outcome p) as [results | e |]; try reflexivity.
  unfold throw, commit, show, request.
  destruct (item_last _) as [[[seq_num byte_offset] end_byte_offset] | e].
  - destruct (commit_reply w self seq_num end_byte_offset) as [[] | e];
      cbn [app]; rewrite ?app_nil_r; reflexivity.
  - now rewrite app_nil_r.
Qed.

Lemma map_Ok_inj {X : Type} (l1 l2 : list X) :
  map (@Ok X) l1 = map (@Ok X) l2 -> l1 = l2.
Proof.
  revert l2. induction l1 as [| x l1 IH]; intros [| y l2] H;
    try discriminate; [reflexivity |].
  cbn [map] in H. injection H as -> H. f_equal. auto.
Qed.

(** When every upload goes through, a pool with a worker pulls every chunk
    and [map] returns their completion records, in some order. *)
Lemma pool_all_acknowledged (u : list Byte.byte) (C : Z) (N : nat)
    (cs taken : list Chunk) (fin : ChunkIterator) (p : pool Completion) :
  C <> 0 -> (1 <= N)%nat ->
  chunks_of u C = Some (Ok cs, fin) ->
  acknowledged w self cs ->
  pool_inv (sendit w self) (__init__ (FileObj u) C) p taken ->
  admits N p = false -> in_flight p = [] ->
  taken = cs /\
  pool_outcome p = Returns (completed p) /\
  Permutation (completed p) (map completion_of cs).
Proof.
  intros HC HN Hcs Hack (Hreads & _ & Hperm & Herr & Hex) Hadm Hfl.
  destruct (reads_prefix _ _ _ _ _ _ HC Hcs Hreads) as (rest & Hsplit & Hstop).
  assert (Hback : forall c, In c taken -> snd (sendit w self c) = Ok (completion_of c)).
  { intros c Hc. rewrite sendit_back.
    unfold acknowledged in Hack. rewrite Forall_forall in Hack.
    rewrite Hack; [reflexivity |]. subst cs. apply in_or_app. now left. }
  destruct (quiet_outcome N p HN Hadm Hfl) as [(e & He & _) | (Hnone & Hx & Hout)].
  - exfalso. destruct (Herr e He) as [(c & Hc & Hraise) | (Hraise & Hne)].
    + rewrite (Hback c Hc) in Hraise. discriminate.
    + destruct (reads_file _ _ _ _ Hreads) as (u' & s' & b' & Hit).
      rewrite Hit in Hraise.
      destruct (next_file_outcome u' C s' b') as [(c & it' & Hn) | Hn];
        rewrite Hn in Hraise; [discriminate |].
      injection Hraise as <-. congruence.
  - specialize (Hstop (Hex Hx)). subst rest. rewrite app_nil_r in Hsplit.
    subst cs. split; [reflexivity |]. split; [assumption |].
    specialize (Hperm Hnone). rewrite Hfl in Hperm. cbn [app] in Hperm.
    rewrite (map_ext_in _ (fun c => Ok (completion_of c)) taken Hback) in Hperm.
    rewrite <- (map_map completion_of (@Ok Completion)) in Hperm.
    symmetry in Hperm.
    apply Permutation_map_inv in Hperm as (l3 & Heq & Hp).
    apply map_Ok_inj in Heq. subst l3. symmetry. exact Hp.
Qed.

End UploadFacts.

(** * The properties of the specification *)

Lemma numbered_seq (cs : list Chunk) :
  forall s : Z,
    numbered s cs ->
    map chunk_seq cs = map (fun i => s + Z.of_nat i) (seq 0 (length cs)).
Proof.
  induction cs as [| c cs IH]; intros s Hn; [reflexivity |].
  cbn [numbered] in Hn. destruct Hn as (Hs & Hn).
  cbn [length seq map]. f_equal; [lia |].
  rewrite (IH _ Hn), <- seq_shift, map_map.
  apply map_ext. intros i. lia.
Qed.

Lemma tiles_nth (cs : list Chunk) :
  forall (a b : Z) (i : nat) (d : Chunk),
    tiles a b cs -> (S i < length cs)%nat ->
    chunk_end (nth i cs d) = chunk_begin (nth (S i) cs d).
Proof.
  induction cs as [| c cs IH]; intros a b i d Ht Hi; [cbn in Hi; lia |].
  cbn [tiles] in Ht. destruct Ht as (_ & _ & Ht).
  destruct i as [| i].
  - destruct cs as [| c' cs']; [cbn in Hi; lia |].
    cbn [tiles] in Ht. cbn [nth]. symmetry. apply Ht.
  - cbn [length] in Hi. change (nth (S i) (c :: cs) d) with (nth i cs d).
    change (nth (S (S i)) (c :: cs) d) with (nth (S i) cs d).
    eapply IH; [exact Ht | lia].
Qed.

Lemma collect_payloads (fuel : nat) :
  forall (it fin : ChunkIterator) (cs : list Chunk),
    collect fuel it = Some (Ok cs, fin) ->
    Forall (fun c => chunk_payload c <> []) cs.
Proof.
  induction fuel as [| fuel IH]; intros it fin cs H; [discriminate |].
  cbn [collect] in H.
  destruct (__next__ it) as [[c | e] it'] eqn:Hnext.
  - destruct (collect fuel it') as [[[cs' | e'] it''] |] eqn:Hc; try discriminate.
    injection H as <- <-. constructor; [| eauto].
    apply next_chunk in Hnext as (rd & f' & _ & Hrd & -> & _).
    cbn [chunk_payload]. intros ->. rewrite len_nil in Hrd. lia.
  - destruct e; try discriminate. injection H as <- _. constructor.
Qed.

(** C2.  For a stream of any length [L] and a chunk size [C >= 1], the
    chunks of a [ChunkIterator] have ranges that follow one another from 0
    to [L] with no gap and no overlap, each payload is as long as its range,
    not empty and at most [C] bytes, the payloads put together are the
    stream, and the sequence numbers are [0 .. k-1] in read order. *)
Theorem chunks_partition_stream (stream : list Byte.byte) (C : Z) :
  1 <= C ->
  exists (cs : list Chunk) (fin : ChunkIterator),
    chunks_of stream C = Some (Ok cs, fin) /\
    tiles 0 (len stream) cs /\
    (forall (i : nat) (d : Chunk), (S i < length cs)%nat ->
       chunk_end (nth i cs d) = chunk_begin (nth (S i) cs d)) /\
    (forall d : Chunk, cs <> [] ->
       chunk_begin (hd d cs) = 0 /\ chunk_end (last cs d) = len stream) /\
    Forall (payload_ok C) cs /\
    payloads cs = stream /\
    map chunk_seq cs = map Z.of_nat (seq 0 (length cs)).
Proof.
  intros HC.
  destruct (collect_file (S (length stream)) stream C 0 0 ltac:(lia)
              (Nat.lt_succ_diag_r _))
    as (cs & Hcol & Htiles & Hnum & Hpay & Hcat & _).
  rewrite Z.add_0_l in Htiles.
  eexists cs, _. split; [exact Hcol |]. split; [exact Htiles |].
  split; [intros i d Hi; eapply tiles_nth; eauto |].
  split; [| split; [| split; [exact Hcat |]]].
  - intros d Hne. split; [| eapply tiles_last; eauto].
    destruct cs as [| c cs']; [congruence |]. cbn [hd tiles] in *. tauto.
  - eapply Forall_impl; [| exact Hpay].
    intros c (Hl & Hpos & Hle). unfold payload_ok. auto.
  - rewrite (numbered_seq _ _ Hnum). apply map_ext. intros i. lia.
Qed.

Lemma chunks_partition_stream_witness :
  1 <= 2 /\
  exists (cs : list Chunk) (fin : ChunkIterator),
    chunks_of [Byte.x61; Byte.x62; Byte.x63; Byte.x64; Byte.x65] 2 = Some (Ok cs, fin) /\
    tiles 0 5 cs /\ map chunk_seq cs = [0; 1; 2].
Proof.
  split; [lia |].
  destruct (chunks_partition_stream
              [Byte.x61; Byte.x62; Byte.x63; Byte.x64; Byte.x65] 2 ltac:(lia))
    as (cs & fin & Hcs & Htiles & _ & _ & _ & _ & Hseq).
  exists cs, fin. split; [exact Hcs |]. split; [exact Htiles |].
  vm_compute in Hcs. injection Hcs as <- _. reflexivity.
Defined.

(** C3.  When the length of the stream is [q] times the chunk size, the
    iterator gives exactly [q] chunks and then raises [StopIteration] on the
    read that comes back empty; whatever the stream, no chunk has an empty
    payload, and [StopIteration] is raised exactly when the read comes back
    empty. *)
Theorem no_empty_last_chunk (stream : list Byte.byte) (C q : Z) :
  1 <= C ->
  len stream = q * C ->
  exists (cs : list Chunk) (fin : ChunkIterator),
    chunks_of stream C = Some (Ok cs, fin) /\
    Z.of_nat (length cs) = q /\
    fst (read (_filelike fin) (_chunk_size fin)) = Ok [] /\
    fst (__next__ fin) = Raise StopIteration /\
    Forall (fun c => chunk_payload c <> []) cs /\
    (forall (it it' : ChunkIterator) (c : Chunk),
       __next__ it = (Ok c, it') -> chunk_payload c <> []) /\
    (forall it : ChunkIterator,
       fst (__next__ it) = Raise StopIteration <->
       fst (read (_filelike it) (_chunk_size it)) = Ok []).
Proof.
  intros HC HL.
  destruct (collect_file (S (length stream)) stream C 0 0 ltac:(lia)
              (Nat.lt_succ_diag_r _))
    as (cs & Hcol & _ & _ & _ & _ & Hcount).
  eexists cs, _. split; [exact Hcol |].
  assert (Hread : fst (read (FileObj []) C) = Ok []).
  { unfold read. destruct (C <? 0); [reflexivity |].
    now rewrite firstn_nil. }
  split; [| split; [exact Hread | split; [| split; [| split]]]].
  - rewrite (Hcount HC), HL. apply chunk_count_multiple; [lia |].
    pose proof (len_nonneg stream). nia.
  - apply next_stop_iff. exact Hread.
  - eapply collect_payloads; eauto.
  - intros it it' c Hnext.
    apply next_chunk in Hnext as (rd & f' & _ & Hrd & -> & _).
    cbn [chunk_payload]. intros ->. rewrite len_nil in Hrd. lia.
  - apply next_stop_iff.
Qed.

Lemma no_empty_last_chunk_witness :
  1 <= 2 /\ len [Byte.x61; Byte.x62; Byte.x63; Byte.x64] = 2 * 2 /\
  exists (cs : list Chunk) (fin : ChunkIterator),
    chunks_of [Byte.x61; Byte.x62; Byte.x63; Byte.x64] 2 = Some (Ok cs, fin) /\
    Z.of_nat (length cs) = 2.
Proof.
  split; [lia |]. split; [reflexivity |].
  destruct (no_empty_last_chunk [Byte.x61; Byte.x62; Byte.x63; Byte.x64] 2 2
              ltac:(lia) eq_refl)
    as (cs & fin & Hcs & Hq & _).
  exists cs, fin. split; assumption.
Defined.

Lemma filter_chunk_events (self : Source) (f : event -> bool) (cs : list Chunk) :
  (forall s b p, f (EChunk self s b p) = false) ->
  filter f (map (chunk_event self) cs) = [].
Proof.
  intros Hf. induction cs as [| c cs IH]; [reflexivity |].
  cbn [map filter]. unfold chunk_event at 1. now rewrite Hf.
Qed.

Lemma chunks_of_facts (stream : list Byte.byte) (C : Z) (cs : list Chunk)
    (fin : ChunkIterator) :
  C <> 0 ->
  chunks_of stream C = Some (Ok cs, fin) ->
  tiles 0 (len stream) cs /\ numbered 0 cs.
Proof.
  intros HC Hcs.
  destruct (collect_file (S (length stream)) stream C 0 0 HC
              (Nat.lt_succ_diag_r _))
    as (cs' & Hcol & Htiles & Hnum & _).
  unfold chunks_of, __init__ in Hcs. rewrite Hcol in Hcs.
  injection Hcs as <- _. rewrite Z.add_0_l in Htiles. auto.
Qed.

(** C1.  For a stream that is not empty, when every chunk upload goes
    through: whatever the order of the completion records, the record that
    [sorted(results, key=lambda x: x[0])[-1]] selects is one of greatest
    [seq_num] (the number of chunks less one), its [end_byte_offset] is the
    number of bytes of the stream,
    and the upload sends exactly one commit request, with the [seq_num] and
    the [end_byte_offset] of that record; this for every schedule of the
    workers (the schedule is part of [w]). *)
Theorem commit_at_last_chunk (w : World) (self : Source)
    (stream : list Byte.byte) (content_type : string) (init : InitResponse)
    (cs : list Chunk) (fin : ChunkIterator) :
  stream <> [] ->
  initiate_reply w self content_type = Ok init ->
  preferred_chunk_size init <> 0 ->
  1 <= preferred_upload_parallelism init ->
  chunks_of stream (preferred_chunk_size init) = Some (Ok cs, fin) ->
  acknowledged w self cs ->
  forall results : list Completion,
    Permutation results (map completion_of cs) ->
    exists r : Completion,
      item_last (sorted by_seq_num results) = Ok r /\
      In r results /\
      (forall r', In r' results -> by_seq_num r' <= by_seq_num r) /\
      by_seq_num r = Z.of_nat (length cs) - 1 /\
      end_byte_offset_of r = len stream /\
      filter is_commit
        (fst (_chunked_bytes w self (FileObj stream) content_type)) =
        [ECommit self (by_seq_num r) (end_byte_offset_of r)].
Proof.
  intros Hne Hinit HC HN Hcs Hack results Hperm.
  destruct (chunks_of_facts _ _ _ _ HC Hcs) as (Htiles & Hnum).
  assert (Hlen : 0 < len stream).
  { destruct stream; [congruence |]. rewrite len_cons.
    pose proof (len_nonneg stream). lia. }
  pose proof (tiles_nonempty _ _ _ Htiles Hlen) as Hcsne.
  pose (d := (0, 0, 0, @nil Byte.byte) : Chunk).
  assert (Hres : results <> []).
  { intros ->. apply Permutation_nil in Hperm.
    destruct cs; [congruence | discriminate]. }
  destruct (sorted_last_max by_seq_num results Hres) as (r & Hlast & Hin & Hmax).
  pose proof (last_of_sorted_completions cs results 0 d Hnum Hcsne Hperm) as Hsel.
  change (fun x : Completion => fst (fst x)) with by_seq_num in Hsel.
  rewrite Hlast in Hsel. injection Hsel as ->.
  exists (completion_of (last cs d)).
  split; [exact Hlast |]. split; [exact Hin |]. split; [exact Hmax |].
  assert (Hend : end_byte_offset_of (completion_of (last cs d)) = len stream).
  { unfold end_byte_offset_of, completion_of. cbn [snd].
    eapply tiles_last; eauto. }
  split; [unfold by_seq_num, completion_of; cbn [fst];
          now rewrite (numbered_last cs 0 d Hnum Hcsne) |].
  split; [exact Hend |].
  destruct (chunked_bytes_run w self (FileObj stream) content_type init Hinit)
    as (p & taken & Hinv & Hadm & Hfl & Hrun).
  destruct (pool_all_acknowledged w self stream (preferred_chunk_size init)
              (Z.to_nat (preferred_upload_parallelism init)) cs taken fin p
              HC ltac:(lia) Hcs Hack Hinv Hadm Hfl)
    as (-> & Hout & Hdone).
  rewrite Hrun, Hout.
  rewrite (last_of_sorted_completions cs (completed p) 0 d Hnum Hcsne Hdone).
  unfold completion_of at 1.
  cbv zeta.
  unfold by_seq_num, end_byte_offset_of, completion_of. cbn [fst snd].
  destruct (commit_reply w self (chunk_seq (last cs d)) (chunk_end (last cs d)));
    cbn [fst filter is_commit app];
    rewrite filter_app, filter_chunk_events by reflexivity; reflexivity.
Qed.

Lemma reads_empty_file (C : Z) (taken : list Chunk) (it : ChunkIterator) :
  reads (__init__ (FileObj []) C) taken it ->
  taken = [] /\ it = __init__ (FileObj []) C.
Proof.
  induction 1 as [| taken it c it' Hreads (-> & ->) Hnext]; [auto |].
  exfalso. unfold __init__, __next__, read in Hnext.
  cbn [_filelike _chunk_size] in Hnext.
  destruct (C <? 0); [discriminate |].
  rewrite firstn_nil in Hnext. discriminate.
Qed.

Lemma next_empty_file (C : Z) :
  fst (__next__ (__init__ (FileObj []) C)) = Raise StopIteration.
Proof.
  apply next_stop_iff. unfold __init__, read. cbn [_filelike _chunk_size].
  destruct (C <? 0); [reflexivity |]. now rewrite firstn_nil.
Qed.

(** C4, as the code has it.  On a stream of no bytes the upload sends the
    [initiate] request and nothing else: [results] is empty, [[-1]] raises
    [IndexError], and neither [commit] nor [show] is reached. *)
Theorem empty_stream_raises (w : World) (self : Source)
    (content_type : string) (init : InitResponse) :
  initiate_reply w self content_type = Ok init ->
  1 <= preferred_upload_parallelism init ->
  _chunked_bytes w self (FileObj []) content_type =
    ([EInitiate self content_type], Raises IndexError).
Proof.
  intros Hinit HN.
  destruct (chunked_bytes_run w self (FileObj []) content_type init Hinit)
    as (p & taken & Hinv & Hadm & Hfl & Hrun).
  destruct Hinv as (Hreads & _ & Hperm & Herr & _).
  apply reads_empty_file in Hreads as (-> & Hit).
  destruct (quiet_outcome (Z.to_nat (preferred_upload_parallelism init)) p
              ltac:(lia) Hadm Hfl) as [(e & He & _) | (Hnone & _ & Hout)].
  - exfalso. destruct (Herr e He) as [(c & [] & _) | (Hraise & Hnstop)].
    rewrite Hit, next_empty_file in Hraise. congruence.
  - specialize (Hperm Hnone). rewrite Hfl in Hperm. cbn [map app] in Hperm.
    apply Permutation_nil in Hperm.
    destruct (completed p) as [| r l] eqn:Hc; [| discriminate].
    rewrite Hrun, Hout. reflexivity.
Qed.

Lemma empty_stream_raises_witness :
  let w := mkWorld (fun _ _ => Ok (mkInitResponse 100 4))
                   (fun _ _ _ _ => Ok tt) (fun _ _ _ => Ok tt)
                   (fun s => Ok s) (fun s _ _ => Ok s) [] in
  let self := mkSource 1 true in
  initiate_reply w self "text/csv" = Ok (mkInitResponse 100 4) /\
  1 <= 4 /\
  csv w self (FileObj []) = ([EInitiate self "text/csv"], Raises IndexError).
Proof.
  cbv zeta. split; [reflexivity |]. split; [lia |].
  apply (empty_stream_raises _ _ "text/csv" (mkInitResponse 100 4));
    [reflexivity | cbn; lia].
Defined.

(** ** The log of an upload *)

Section LogFacts.

Variable w : World.

(** What [_chunked_bytes] sends: [initiate], the chunks pulled, and then
    nothing, or [commit], or [commit] and [show]; it returns only what
    [show] returned. *)
Lemma chunked_bytes_log (self : Source) (file_handle : pyobj)
    (content_type : string) :
  exists (taken : list Chunk) (tail : list event),
    fst (_chunked_bytes w self file_handle content_type) =
      EInitiate self content_type :: map (chunk_event self) taken ++ tail /\
    ((tail = [] /\
      forall x, snd (_chunked_bytes w self file_handle content_type) <> Returns x) \/
     (exists s e, tail = [ECommit self s e] /\
      forall x, snd (_chunked_bytes w self file_handle content_type) <> Returns x) \/
     (exists s e, tail = [ECommit self s e; EShow self] /\
      snd (_chunked_bytes w self file_handle content_type) =
        match show_reply w self with
        | Ok x => Returns x
        | Raise ex => Raises ex
        end)).
Proof.
  destruct (initiate_reply w self content_type) as [init | e] eqn:Hinit.
  - destruct (chunked_bytes_run w self file_handle content_type init Hinit)
      as (p & taken & _ & _ & _ & Hrun).
    cbv zeta in Hrun. rewrite Hrun.
    destruct (pool_outcome p) as [results | e |].
    + destruct (item_last _) as [[[s b] e] | e].
      * destruct (commit_reply w self s e) as [[] | ex].
        -- exists taken, [ECommit self s e; EShow self].  split; [reflexivity |]. right. right. eauto.
        -- exists taken, [ECommit self s e].  split; [reflexivity |]. right. left. exists s, e.
           split; [reflexivity | discriminate].
      * exists taken, []. cbn [fst snd]. rewrite app_nil_r.
        split; [reflexivity |]. left. split; [reflexivity | discriminate].
    + exists taken, []. cbn [fst snd]. rewrite app_nil_r.
      split; [reflexivity |]. left. split; [reflexivity | discriminate].
    + exists taken, []. cbn [fst snd]. rewrite app_nil_r.
      split; [reflexivity |]. left. split; [reflexivity | discriminate].
  - rewrite (chunked_bytes_no_session w self file_handle content_type e Hinit).
    exists [], []. cbn. split; [reflexivity |].
    left. split; [reflexivity | discriminate].
Qed.

End LogFacts.

Lemma chunk_seqs_chunk_events (self : Source) (cs : list Chunk) :
  chunk_seqs (map (chunk_event self) cs) = map chunk_seq cs.
Proof.
  induction cs as [| c cs IH]; [reflexivity |].
  cbn [map chunk_seqs chunk_event]. now rewrite IH.
Qed.

Lemma reads_seqs_nodup (it0 it : ChunkIterator) (taken : list Chunk) :
  reads it0 taken it -> NoDup (map chunk_seq taken).
Proof.
  intros Hreads. apply reads_state in Hreads as (_ & _ & ->).
  apply Finite.Injective_map_NoDup; [| apply seq_NoDup].
  intros i j Hij. lia.
Qed.

(** After a chunk has been read, the reader is a file object: it does not
    raise anything but [StopIteration]. *)
Lemma reads_then_no_error (file_handle : pyobj) (C : Z) (taken : list Chunk)
    (it : ChunkIterator) (e : exn) :
  reads (__init__ file_handle C) taken it ->
  taken <> [] ->
  fst (__next__ it) = Raise e -> e = StopIteration.
Proof.
  intros Hreads Hne Hraise.
  destruct file_handle as [u | v].
  - destruct (reads_file _ _ _ _ Hreads) as (u' & s' & b' & ->).
    destruct (next_file_outcome u' C s' b') as [(c & it' & Hn) | Hn];
      rewrite Hn in Hraise; [discriminate | congruence].
  - apply reads_bytes in Hreads as (-> & _). congruence.
Qed.

(** C5.  If a chunk request of an upload is one that the service answers
    with an error, then the upload raises an error that one of its chunk
    requests was answered with, it has sent no commit and no show request,
    and no sequence number occurs in two of its chunk requests. *)
Theorem chunk_failure_aborts (w : World) (self : Source) (file_handle : pyobj)
    (content_type : string) (s b : Z) (bs : list Byte.byte) (e : exn) :
  In (EChunk self s b bs)
     (fst (_chunked_bytes w self file_handle content_type)) ->
  chunk_reply w self s b bs = Raise e ->
  (exists e' s' b' bs',
     snd (_chunked_bytes w self file_handle content_type) = Raises e' /\
     In (EChunk self s' b' bs')
        (fst (_chunked_bytes w self file_handle content_type)) /\
     chunk_reply w self s' b' bs' = Raise e') /\
  filter is_commit (fst (_chunked_bytes w self file_handle content_type)) = [] /\
  filter is_show (fst (_chunked_bytes w self file_handle content_type)) = [] /\
  NoDup (chunk_seqs (fst (_chunked_bytes w self file_handle content_type))).
Proof.
  intros Hin Hreply.
  destruct (initiate_reply w self content_type) as [init | e0] eqn:Hinit.
  2:{ rewrite (chunked_bytes_no_session w self file_handle content_type e0 Hinit)
        in Hin.
      destruct Hin as [Hin | []]. discriminate. }
  destruct (chunked_bytes_run w self file_handle content_type init Hinit)
    as (p & taken & Hinv & Hadm & Hfl & Hrun).
  destruct Hinv as (Hreads & _ & Hperm & Herr & _).
  cbv zeta in Hrun.
  rewrite (quiet_outcome_cases p Hfl) in Hrun.
  (* the failed request is the request of a chunk that was pulled *)
  assert (Htaken : exists c, In c taken /\ snd (sendit w self c) = Raise e).
  { assert (Hin' : In (EChunk self s b bs)
                      (EInitiate self content_type :: map (chunk_event self) taken)).
    { destruct (first_error p); [now rewrite Hrun in Hin |].
      destruct (exhausted p); [| now rewrite Hrun in Hin].
      destruct (item_last _) as [[[s0 b0] e0] | e0]; [| now rewrite Hrun in Hin].
      destruct (commit_reply w self s0 e0); rewrite Hrun in Hin; cbn [fst] in Hin;
        apply in_app_or in Hin as [Hin | Hin]; try assumption;
        cbn in Hin; intuition discriminate. }
    destruct Hin' as [Hin' | Hin']; [discriminate |].
    apply in_map_iff in Hin' as (c & Hc & Hin').
    exists c. split; [assumption |].
    rewrite sendit_back. unfold chunk_event in Hc. injection Hc as -> -> ->.
    now rewrite Hreply. }
  destruct Htaken as (c & Hc & Hback).
  destruct (first_error p) as [e' |] eqn:Hfe.
  - rewrite Hrun. cbn [fst snd].
    split; [| split; [| split]].
    + destruct (Herr e' eq_refl) as [(c' & Hc' & Hback') | (Hraise & Hnstop)].
      * exists e', (chunk_seq c'), (chunk_begin c'), (chunk_payload c').
        split; [reflexivity |]. split.
        -- right. apply in_map_iff. exists c'. auto.
        -- rewrite sendit_back in Hback'.
           destruct (chunk_reply w self (chunk_seq c') (chunk_begin c')
                       (chunk_payload c')); congruence.
      * exfalso. apply Hnstop.
        eapply reads_then_no_error; eauto. intros ->. destruct Hc.
    + cbn [filter is_commit]. now apply filter_chunk_events.
    + cbn [filter is_show]. now apply filter_chunk_events.
    + cbn [chunk_seqs]. rewrite chunk_seqs_chunk_events.
      eapply reads_seqs_nodup; eauto.
  - exfalso. specialize (Hperm eq_refl). rewrite Hfl in Hperm. cbn [app] in Hperm.
    assert (Hbad : In (Raise e) (map (@Ok Completion) (completed p))).
    { eapply Permutation_in; [exact Hperm |].
      apply in_map_iff. exists c. auto. }
    apply in_map_iff in Hbad as (r & Hr & _). discriminate.
Qed.

(** C10.  [df] hands a [bytes] value to the pipeline; the first call of
    [__next__] raises [AttributeError], so after the [initiate] request
    nothing is sent: no chunk, no commit.  (A pool without a worker never
    calls [__next__], and then [map] never returns.) *)
Theorem df_fails_at_first_read {DataFrame : Type}
    (to_csv : DataFrame -> list Byte.byte) (w : World) (self : Source)
    (dataframe : DataFrame) :
  df w to_csv self dataframe =
    ([EInitiate self "text/csv"],
     match initiate_reply w self "text/csv" with
     | Raise e => Raises e
     | Ok init =>
         if 1 <=? preferred_upload_parallelism init
         then Raises (AttributeError "read")
         else Hangs
     end) /\
  (forall C : Z,
     fst (__next__ (__init__ (BytesObj (to_csv dataframe)) C)) =
       Raise (AttributeError "read")) /\
  filter is_chunk (fst (df w to_csv self dataframe)) = [] /\
  filter is_commit (fst (df w to_csv self dataframe)) = [] /\
  match snd (df w to_csv self dataframe) with
  | Returns _ => False
  | _ => True
  end.
Proof.
  assert (Hrun : df w to_csv self dataframe =
    ([EInitiate self "text/csv"],
     match initiate_reply w self "text/csv" with
     | Raise e => Raises e
     | Ok init =>
         if 1 <=? preferred_upload_parallelism init
         then Raises (AttributeError "read")
         else Hangs
     end)).
  { unfold df, _chunked_bytes, initiate, request, bind.
    destruct (initiate_reply w self "text/csv") as [init | e]; [| reflexivity].
    unfold pool_map, pool_start, pool_measure.
    cbn [exhausted failed first_error orb pool_iterator _filelike __init__
         unread_bytes length in_flight Nat.mul Nat.add].
    destruct (Z.leb_spec 1 (preferred_upload_parallelism init)) as [HN | HN].
    - destruct (Z.to_nat (preferred_upload_parallelism init)) as [| n] eqn:Hn;
        [lia |].
      reflexivity.
    - replace (Z.to_nat (preferred_upload_parallelism init)) with 0%nat by lia.
      reflexivity. }
  split; [exact Hrun |]. split; [reflexivity |].
  rewrite Hrun. cbn [fst snd filter is_chunk is_commit].
  repeat split.
  destruct (initiate_reply w self "text/csv") as [init | e]; [| exact I].
  destruct (1 <=? preferred_upload_parallelism init); exact I.
Qed.

Lemma bind_ret_l {A B : Type} (a : A) (k : A -> M B) : bind (ret a) k = k a.
Proof. unfold bind, ret. destruct (k a) as [log r]. reflexivity. Qed.

Lemma initiates_with_chunked_bytes (w : World) (self : Source)
    (file_handle : pyobj) (content_type : string) :
  initiates_with content_type
    (fst (_chunked_bytes w self file_handle content_type)).
Proof.
  destruct (chunked_bytes_log w self file_handle content_type)
    as (taken & tail & -> & Htail).
  unfold initiates_with. constructor; [reflexivity |].
  apply Forall_app. split.
  - apply Forall_forall. intros ev Hev.
    apply in_map_iff in Hev as (c & <- & _). exact I.
  - destruct Htail as [(-> & _) | [(s & e & -> & _) | (s & e & -> & _)]];
      repeat constructor.
Qed.

Lemma no_parse_option_change (w : World) (self : Source)
    (file_handle : pyobj) (content_type : string) :
  filter is_change_parse_option
    (fst (_chunked_bytes w self file_handle content_type)) = [].
Proof.
  destruct (chunked_bytes_log w self file_handle content_type)
    as (taken & tail & -> & Htail).
  cbn [filter is_change_parse_option].
  rewrite filter_app, filter_chunk_events by reflexivity.
  destruct Htail as [(-> & _) | [(s & e & -> & _) | (s & e & -> & _)]];
    reflexivity.
Qed.

(** C6.  The entry point of every kind runs [_chunked_bytes] with the
    content type that the table gives for the kind, on [self] or, for a
    blob whose [parse_source] is set, on the resource that the change of the
    parse option returns; every [initiate] request it sends declares that
    content type. *)
Theorem content_type_by_kind (w : World) (k : upload_kind) (self : Source)
    (file_handle : pyobj) :
  entry_point w k self file_handle =
    (source <- (if is_blob k && parse_source self
                then change_parse_option w self "parse_source" false
                else ret self) ;;
     _chunked_bytes w source file_handle (spec_content_type k)) /\
  initiates_with (spec_content_type k) (fst (entry_point w k self file_handle)).
Proof.
  assert (Heq : entry_point w k self file_handle =
    (source <- (if is_blob k && parse_source self
                then change_parse_option w self "parse_source" false
                else ret self) ;;
     _chunked_bytes w source file_handle (spec_content_type k))).
  { destruct k; cbn [is_blob andb entry_point spec_content_type];
      rewrite ?bind_ret_l; reflexivity. }
  split; [exact Heq |]. rewrite Heq.
  destruct (is_blob k && parse_source self).
  - unfold change_parse_option, request, bind.
    destruct (change_parse_option_reply w self "parse_source" false)
      as [source | e].
    + pose proof (initiates_with_chunked_bytes w source file_handle
                    (spec_content_type k)) as H.
      destruct (_chunked_bytes w source file_handle (spec_content_type k))
        as [log r].
      cbn [fst app] in *. constructor; [exact I | exact H].
    + repeat constructor.
  - rewrite bind_ret_l. apply initiates_with_chunked_bytes.
Qed.

(** C7.  [blob]: when [parse_source] is set, the change of the parse option
    is the first request, the pipeline runs on the resource it returns, and
    it does not run at all when that request fails; when [parse_source] is
    not set, [blob] is the pipeline on [self].  The pipeline itself never
    sends a change of a parse option. *)
Theorem blob_disables_parsing_first (w : World) (self : Source)
    (file_handle : pyobj) :
  blob w self file_handle =
    (if parse_source self then
       match change_parse_option_reply w self "parse_source" false with
       | Ok source =>
           (EChangeParseOption self "parse_source" false ::
              fst (_chunked_bytes w source file_handle "application/octet-stream"),
            snd (_chunked_bytes w source file_handle "application/octet-stream"))
       | Raise e => ([EChangeParseOption self "parse_source" false], Raises e)
       end
     else _chunked_bytes w self file_handle "application/octet-stream") /\
  (forall source : Source,
     filter is_change_parse_option
       (fst (_chunked_bytes w source file_handle "application/octet-stream")) = []).
Proof.
  split; [| intros source; apply no_parse_option_change].
  unfold blob. destruct (parse_source self).
  - unfold change_parse_option, request, bind.
    destruct (change_parse_option_reply w self "parse_source" false)
      as [source | e]; [| reflexivity].
    destruct (_chunked_bytes w source file_handle "application/octet-stream").
    reflexivity.
  - now rewrite bind_ret_l.
Qed.

(** What [_chunked_bytes] returns is what the [show] request, its last
    request, was answered with. *)
Lemma returns_the_snapshot_of_show (w : World) (self : Source)
    (file_handle : pyobj) (content_type : string) :
  match snd (_chunked_bytes w self file_handle content_type) with
  | Returns snapshot =>
      show_reply w self = Ok snapshot /\
      exists log,
        fst (_chunked_bytes w self file_handle content_type) =
          log ++ [EShow self]
  | _ => True
  end.
Proof.
  destruct (chunked_bytes_log w self file_handle content_type)
    as (taken & tail & Hlog & Htail).
  destruct (snd (_chunked_bytes w self file_handle content_type))
    as [snapshot | e |] eqn:Hout; try exact I.
  destruct Htail as [(_ & Hno) | [(s & e & _ & Hno) | (s & e & -> & Hshow)]];
    try (exfalso; eapply Hno; reflexivity).
  split.
  - destruct (show_reply w self); congruence.
  - exists (EInitiate self content_type ::
              map (chunk_event self) taken ++ [ECommit self s e]).
    rewrite Hlog. cbn [app]. rewrite <- app_assoc. reflexivity.
Qed.

(** The run of [df]: the [bytes] value stops the first [__next__]. *)
Lemma df_run {DataFrame : Type} (to_csv : DataFrame -> list Byte.byte)
    (w : World) (self : Source) (dataframe : DataFrame) :
  df w to_csv self dataframe =
    ([EInitiate self "text/csv"],
     match initiate_reply w self "text/csv" with
     | Raise e => Raises e
     | Ok init =>
         if 1 <=? preferred_upload_parallelism init
         then Raises (AttributeError "read")
         else Hangs
     end).
Proof.
  unfold df, _chunked_bytes, initiate, request, bind.
  destruct (initiate_reply w self "text/csv") as [init | e]; [| reflexivity].
  unfold pool_map, pool_start, pool_measure.
  cbn [exhausted failed first_error orb pool_iterator _filelike __init__
       unread_bytes length in_flight Nat.mul Nat.add].
  destruct (Z.leb_spec 1 (preferred_upload_parallelism init)) as [HN | HN].
  - destruct (Z.to_nat (preferred_upload_parallelism init)) as [| n] eqn:Hn;
      [lia |].
    reflexivity.
  - replace (Z.to_nat (preferred_upload_parallelism init)) with 0%nat by lia.
    reflexivity.
Qed.

(** C9.  [bytes] sends what [_chunked_bytes] sends and raises what it
    raises, but where [_chunked_bytes] returns the resource that the [show]
    request (the last one sent) was answered with, [bytes] returns [None].
    Every other entry point that returns, returns that resource: [csv] and
    the other kinds of file are [_chunked_bytes] itself, [blob] is
    [_chunked_bytes] on the resource it uploads to, and whatever one of them
    returns is what its last request, a [show], was answered with.  [df] is
    the exception among them: it never returns at all. *)
Theorem bytes_returns_none (w : World) (self : Source) (file_handle : pyobj)
    (content_type : string) :
  fst (bytes w self file_handle content_type) =
    fst (_chunked_bytes w self file_handle content_type) /\
  snd (bytes w self file_handle content_type) =
    match snd (_chunked_bytes w self file_handle content_type) with
    | Returns _ => Returns None
    | Raises e => Raises e
    | Hangs => Hangs
    end /\
  match snd (_chunked_bytes w self file_handle content_type) with
  | Returns snapshot =>
      show_reply w self = Ok snapshot /\
      last (fst (_chunked_bytes w self file_handle content_type))
           (EInitiate self content_type) = EShow self
  | _ => True
  end /\
  csv w self file_handle = _chunked_bytes w self file_handle "text/csv" /\
  (forall k : upload_kind,
     is_blob k = false ->
     entry_point w k self file_handle =
       _chunked_bytes w self file_handle (spec_content_type k)) /\
  (forall k : upload_kind,
     match snd (entry_point w k self file_handle) with
     | Returns snapshot =>
         exists (source : Source) (log : list event),
           show_reply w source = Ok snapshot /\
           fst (entry_point w k self file_handle) = log ++ [EShow source] /\
           (is_blob k = false -> source = self)
     | _ => True
     end) /\
  (forall (DataFrame : Type) (to_csv : DataFrame -> list Byte.byte)
          (dataframe : DataFrame),
     match snd (df w to_csv self dataframe) with
     | Returns _ => False
     | _ => True
     end).
Proof.
  split; [| split; [| split; [| split; [reflexivity | split; [| split]]]]].
  - unfold bytes, bind, ret.
    destruct (_chunked_bytes w self file_handle content_type) as [log [x | e |]];
      cbn [fst]; rewrite ?app_nil_r; reflexivity.
  - unfold bytes, bind, ret.
    destruct (_chunked_bytes w self file_handle content_type) as [log [x | e |]];
      reflexivity.
  - pose proof (returns_the_snapshot_of_show w self file_handle content_type)
      as Hret.
    destruct (snd (_chunked_bytes w self file_handle content_type))
      as [snapshot | e |]; try exact I.
    destruct Hret as (Hshow & log & Hlog).
    split; [exact Hshow |]. rewrite Hlog. apply last_last.
  - intros k Hk. destruct k; try discriminate; reflexivity.
  - intros k.
    assert (Hplain : forall content_type',
              match snd (_chunked_bytes w self file_handle content_type') with
              | Returns snapshot =>
                  exists (source : Source) (log : list event),
                    show_reply w source = Ok snapshot /\
                    fst (_chunked_bytes w self file_handle content_type') =
                      log ++ [EShow source] /\
                    (is_blob k = false -> source = self)
              | _ => True
              end).
    { intros content_type'.
      pose proof (returns_the_snapshot_of_show w self file_handle content_type')
        as Hret.
      destruct (snd (_chunked_bytes w self file_handle content_type'));
        try exact I.
      destruct Hret as (Hshow & log & Hlog). exists self, log. auto. }
    destruct k; cbn [entry_point];
      try (apply Hplain).
    (* blob *)
    unfold blob. destruct (parse_source self).
    + unfold change_parse_option, request, bind.
      destruct (change_parse_option_reply w self "parse_source" false)
        as [source | e]; [| exact I].
      pose proof (returns_the_snapshot_of_show w source file_handle
                    "application/octet-stream") as Hret.
      destruct (_chunked_bytes w source file_handle "application/octet-stream")
        as [log' out]. cbn [fst snd] in *.
      destruct out as [snapshot | e |]; try exact I.
      destruct Hret as (Hshow & log & ->).
      exists source, (EChangeParseOption self "parse_source" false :: log).
      split; [exact Hshow |]. split; [reflexivity | discriminate].
    + rewrite bind_ret_l. apply Hplain.
  - intros DataFrame to_csv dataframe. rewrite df_run. cbn [snd].
    destruct (initiate_reply w self "text/csv") as [init | e]; [| exact I].
    destruct (1 <=? preferred_upload_parallelism init); exact I.
Qed.

(** ** The examples of the specification *)

Definition example_source : Source := mkSource 1 true.

Definition example_stream : list Byte.byte :=
  [Byte.x61; Byte.x62; Byte.x63; Byte.x64; Byte.x65].

(** Chunk size 2, three workers, every request answered; the workers move as
    the list of choices says. *)
Definition example_world : World :=
  mkWorld (fun _ _ => Ok (mkInitResponse 2 3))
          (fun _ _ _ _ => Ok tt)
          (fun _ _ _ => Ok tt)
          (fun s => Ok s)
          (fun s _ _ => Ok (mkSource (source_id s) false))
          [0; 0; 0; 2; 1]%nat.

(** The same, but the upload of the chunk with [seq_num] 1 fails. *)
Definition failing_world : World :=
  mkWorld (fun _ _ => Ok (mkInitResponse 2 3))
          (fun _ seq_num _ _ =>
             if seq_num =? 1 then Raise (TransportError 503) else Ok tt)
          (fun _ _ _ => Ok tt)
          (fun s => Ok s)
          (fun s _ _ => Ok (mkSource (source_id s) false))
          [0; 0; 0; 2; 1]%nat.

Example example_out_of_order :
  snd (csv example_world example_source (FileObj example_stream)) =
    Returns example_source /\
  filter is_commit
    (fst (csv example_world example_source (FileObj example_stream))) =
    [ECommit example_source 2 5].
Proof. split; reflexivity. Qed.

Example example_completion_order :
  completed
    (pool_run 3 (sendit example_world example_source) 12 [0; 0; 0; 2; 1]%nat
       (pool_start (__init__ (FileObj example_stream) 2))) =
    [(2, 4, 5); (0, 0, 2); (1, 2, 4)].
Proof. reflexivity. Qed.

Example example_failure :
  snd (csv failing_world example_source (FileObj example_stream)) =
    Raises (TransportError 503) /\
  filter is_commit
    (fst (csv failing_world example_source (FileObj example_stream))) = [] /\
  filter is_show
    (fst (csv failing_world example_source (FileObj example_stream))) = [].
Proof. repeat split; reflexivity. Qed.

Lemma commit_at_last_chunk_witness :
  example_stream <> [] /\
  Permutation [(2, 4, 5); (0, 0, 2); (1, 2, 4)]
    (map completion_of
       [(0, 0, 2, [Byte.x61; Byte.x62]); (1, 2, 4, [Byte.x63; Byte.x64]);
        (2, 4, 5, [Byte.x65])]) /\
  exists r : Completion,
    item_last (sorted by_seq_num [(2, 4, 5); (0, 0, 2); (1, 2, 4)]) = Ok r /\
    end_byte_offset_of r = len example_stream /\
    filter is_commit
      (fst (_chunked_bytes example_world example_source
              (FileObj example_stream) "text/csv")) =
      [ECommit example_source (by_seq_num r) (end_byte_offset_of r)].
Proof.
  assert (Hperm : Permutation [(2, 4, 5); (0, 0, 2); (1, 2, 4)]
    (map completion_of
       [(0, 0, 2, [Byte.x61; Byte.x62]); (1, 2, 4, [Byte.x63; Byte.x64]);
        (2, 4, 5, [Byte.x65])])).
  { cbn. apply Permutation_sym.
    apply (Permutation_cons_app [(2, 4, 5)] [(1, 2, 4)] (0, 0, 2)).
    apply (Permutation_cons_app [(2, 4, 5)] [] (1, 2, 4)). reflexivity. }
  split; [discriminate |]. split; [exact Hperm |].
  destruct (commit_at_last_chunk example_world example_source example_stream
              "text/csv" (mkInitResponse 2 3)
              [(0, 0, 2, [Byte.x61; Byte.x62]); (1, 2, 4, [Byte.x63; Byte.x64]);
               (2, 4, 5, [Byte.x65])]
              (mkChunkIterator (FileObj []) 2 3 5)
              ltac:(discriminate) eq_refl ltac:(discriminate)
              ltac:(cbn; lia) eq_refl
              ltac:(repeat constructor)
              [(2, 4, 5); (0, 0, 2); (1, 2, 4)] Hperm)
    as (r & Hlast & _ & _ & _ & Hend & Hcommit).
  exists r. auto.
Defined.

Lemma chunk_failure_aborts_witness :
  In (EChunk example_source 1 2 [Byte.x63; Byte.x64])
     (fst (_chunked_bytes failing_world example_source
             (FileObj example_stream) "text/csv")) /\
  chunk_reply failing_world example_source 1 2 [Byte.x63; Byte.x64] =
    Raise (TransportError 503) /\
  filter is_commit
    (fst (_chunked_bytes failing_world example_source
            (FileObj example_stream) "text/csv")) = [] /\
  filter is_show
    (fst (_chunked_bytes failing_world example_source
            (FileObj example_stream) "text/csv")) = [].
Proof.
  assert (Hin : In (EChunk example_source 1 2 [Byte.x63; Byte.x64])
     (fst (_chunked_bytes failing_world example_source
             (FileObj example_stream) "text/csv"))).
  { vm_compute. right. right. left. reflexivity. }
  split; [exact Hin |]. split; [reflexivity |].
  destruct (chunk_failure_aborts failing_world example_source
              (FileObj example_stream) "text/csv" 1 2 [Byte.x63; Byte.x64]
              (TransportError 503) Hin eq_refl)
    as (_ & Hcommit & Hshow & _).
  split; assumption.
Defined.

(** * Further properties of the code *)

(** ** [ChunkIterator] *)

Lemma collect_nothing_left (fuel : nat) (C s b : Z) (cs : list Chunk)
    (fin : ChunkIterator) :
  collect fuel (mkChunkIterator (FileObj []) C s b) = Some (Ok cs, fin) ->
  cs = [].
Proof.
  destruct fuel as [| fuel]; [discriminate |].
  cbn [collect]. unfold __next__, read. cbn [_filelike _chunk_size].
  destruct (C <? 0); [| rewrite firstn_nil]; cbn [not_];
    intros H; now injection H as <- _.
Qed.

Lemma collect_full_chunks (fuel : nat) :
  forall (u : list Byte.byte) (C s b : Z) (cs : list Chunk) (fin : ChunkIterator),
    1 <= C ->
    collect fuel (mkChunkIterator (FileObj u) C s b) = Some (Ok cs, fin) ->
    forall (i : nat) (d : Chunk),
      (S i < length cs)%nat -> len (chunk_payload (nth i cs d)) = C.
Proof.
  induction fuel as [| fuel IH]; intros u C s b cs fin HC Hcol i d Hi;
    [discriminate |].
  cbn [collect] in Hcol.
  destruct (read_file u C) as (rd & rest & Hread & Hu & Hlen & _).
  unfold __next__ in Hcol. cbn [_filelike _chunk_size seq_num byte_offset] in Hcol.
  rewrite Hread in Hcol.
  destruct (not_ rd) eqn:Hn.
  - injection Hcol as <- _. cbn in Hi. lia.
  - destruct (collect fuel (mkChunkIterator (FileObj rest) C (s + 1) (b + len rd)))
      as [[[cs' | e] fin'] |] eqn:Hrest; try discriminate.
    injection Hcol as <- <-.
    destruct i as [| i]; cbn [nth chunk_payload].
    + (* a chunk that is followed by another one is full *)
      destruct rest as [| x rest'].
      * apply collect_nothing_left in Hrest. subst cs'. cbn in Hi. lia.
      * specialize (Hlen ltac:(lia)). subst u.
        rewrite len_app, len_cons in Hlen. pose proof (len_nonneg rest'). lia.
    + cbn [length] in Hi. eapply IH; [exact HC | exact Hrest | lia].
Qed.

(** X1.  For a chunk size [C >= 1] the iterator gives [ceil(L / C)] chunks;
    every chunk but the last has exactly [C] bytes; when the loop ends the
    iterator has counted all chunks and all bytes, and the file is at its
    end. *)
Theorem chunks_full_but_last (stream : list Byte.byte) (C : Z) :
  1 <= C ->
  exists cs : list Chunk,
    chunks_of stream C =
      Some (Ok cs, mkChunkIterator (FileObj []) C (Z.of_nat (length cs))
                     (len stream)) /\
    Z.of_nat (length cs) = (len stream + C - 1) / C /\
    (forall (i : nat) (d : Chunk),
       (S i < length cs)%nat -> len (chunk_payload (nth i cs d)) = C) /\
    (forall d : Chunk, cs <> [] ->
       1 <= len (chunk_payload (last cs d)) <= C).
Proof.
  intros HC.
  destruct (collect_file (S (length stream)) stream C 0 0 ltac:(lia)
              (Nat.lt_succ_diag_r _))
    as (cs & Hcol & _ & _ & Hpay & _ & Hcount).
  rewrite !Z.add_0_l in Hcol.
  exists cs. split; [exact Hcol |]. split; [now apply Hcount |]. split.
  - intros i d Hi. eapply collect_full_chunks; eauto.
  - intros d Hne. rewrite Forall_forall in Hpay.
    destruct (Hpay (last cs d) (last_In cs d Hne)) as (_ & Hpos & Hle).
    split; [exact Hpos | now apply Hle].
Qed.

Lemma chunks_full_but_last_witness :
  1 <= 2 /\
  exists cs : list Chunk,
    chunks_of [Byte.x61; Byte.x62; Byte.x63; Byte.x64; Byte.x65] 2 =
      Some (Ok cs, mkChunkIterator (FileObj []) 2 (Z.of_nat (length cs)) 5) /\
    Z.of_nat (length cs) = 3.
Proof.
  split; [lia |].
  destruct (chunks_full_but_last
              [Byte.x61; Byte.x62; Byte.x63; Byte.x64; Byte.x65] 2 ltac:(lia))
    as (cs & Hcs & Hk & _).
  exists cs. split; [exact Hcs |]. rewrite Hk. reflexivity.
Defined.

(** X2.  With a chunk size of -1 [read] returns all that is left of the
    file: a stream that is not empty comes as one chunk with sequence
    number 0 that holds all of it, and the call after it raises
    [StopIteration]. *)
Theorem chunk_size_minus_one_one_chunk (stream : list Byte.byte) :
  stream <> [] ->
  chunks_of stream (-1) =
    Some (Ok [(0, 0, len stream, stream)],
          mkChunkIterator (FileObj []) (-1) 1 (len stream)) /\
  fst (__next__ (mkChunkIterator (FileObj []) (-1) 1 (len stream))) =
    Raise StopIteration.
Proof.
  intros Hne. split; [| reflexivity].
  unfold chunks_of, __init__.
  destruct stream as [| x stream]; [congruence |].
  reflexivity.
Qed.

Lemma chunk_size_minus_one_one_chunk_witness :
  [Byte.x61; Byte.x62; Byte.x63] <> [] /\
  chunks_of [Byte.x61; Byte.x62; Byte.x63] (-1) =
    Some (Ok [(0, 0, 3, [Byte.x61; Byte.x62; Byte.x63])],
          mkChunkIterator (FileObj []) (-1) 1 3).
Proof.
  split; [discriminate |].
  apply (chunk_size_minus_one_one_chunk [Byte.x61; Byte.x62; Byte.x63]).
  discriminate.
Defined.

(** X3.  A call of [__next__] that raises leaves the iterator as it was, so
    every later call raises the same exception: after [StopIteration] the
    iterator gives no further chunk, however often it is called. *)
Theorem next_failure_repeats (it : ChunkIterator) (e : exn) (n : nat) :
  fst (__next__ it) = Raise e ->
  __next__ (Nat.iter n (fun i => snd (__next__ i)) it) = (Raise e, it).
Proof.
  intros Hraise.
  assert (Hsame : __next__ it = (Raise e, it)).
  { destruct (__next__ it) as [r it'] eqn:Hnext. cbn [fst] in Hraise. subst r.
    now rewrite (next_raise_same _ _ _ Hnext). }
  induction n as [| n IH]; [exact Hsame |].
  change (Nat.iter (S n) (fun i => snd (__next__ i)) it)
    with (snd (__next__ (Nat.iter n (fun i => snd (__next__ i)) it))).
  rewrite IH. cbn [snd]. exact Hsame.
Qed.

Lemma next_failure_repeats_witness :
  fst (__next__ (mkChunkIterator (FileObj []) 2 3 5)) = Raise StopIteration /\
  __next__ (Nat.iter 4 (fun i => snd (__next__ i))
              (mkChunkIterator (FileObj []) 2 3 5)) =
    (Raise StopIteration, mkChunkIterator (FileObj []) 2 3 5).
Proof.
  split; [reflexivity |].
  apply (next_failure_repeats (mkChunkIterator (FileObj []) 2 3 5)
           StopIteration 4).
  reflexivity.
Defined.

(** * [__next__] under [self.lock], statement by statement

    Any number of threads call [__next__] on one [ChunkIterator].  A thread
    moves by one statement at a time, and the threads move in any order: a
    schedule is the list of the threads that move.  [threading.Lock] is held
    by at most one thread; a thread that finds it held waits. *)

Module Threads.

(** Where a thread is in [__next__], with the local variables it has. *)
Inductive pc : Type :=
| Idle                                              (* not in a call *)
| AtLock                                            (* with self.lock: *)
| AtRead                                            (* read = self._filelike.read(...) *)
| AtTest (read : list Byte.byte)                    (* if not read: *)
| AtThisSeq (read : list Byte.byte)                 (* this_seq = self.seq_num *)
| AtThisOffset (read : list Byte.byte) (this_seq : Z)
                                                    (* this_byte_offset = self.byte_offset *)
| AtBumpSeq (read : list Byte.byte) (this_seq this_byte_offset : Z)
                                                    (* self.seq_num = self.seq_num + 1 *)
| AtBumpOffset (read : list Byte.byte) (this_seq this_byte_offset : Z)
                                                    (* self.byte_offset = ... + len(read) *)
| AtReturn (read : list Byte.byte) (this_seq this_byte_offset : Z)
                                                    (* return (...) *)
| Leaving (r : result Chunk).                       (* end of the with block *)

Record config : Type := mkConfig {
  self : ChunkIterator;                 (* the fields of the shared iterator *)
  lock : option nat;                    (* the thread that holds self.lock *)
  pcs : nat -> pc;
  delivered : list (nat * result Chunk) (* what the calls gave, in the order
                                           in which they left the block *)
}.

Definition set_pc (f : nat -> pc) (t : nat) (p : pc) : nat -> pc :=
  fun t' => if Nat.eqb t' t then p else f t'.

Definition goto (c : config) (t : nat) (p : pc) : config :=
  mkConfig (self c) (lock c) (set_pc (pcs c) t p) (delivered c).

Definition with_self (c : config) (it : ChunkIterator) : config :=
  mkConfig it (lock c) (pcs c) (delivered c).

(** Thread [t] takes its next step; [None] when it waits for the lock. *)
Definition step (t : nat) (c : config) : option config :=
  match pcs c t with
  | Idle => Some (goto c t AtLock)
  | AtLock =>
      match lock c with
      | None => Some (mkConfig (self c) (Some t) (set_pc (pcs c) t AtRead) (delivered c))
      | Some _ => None
      end
  | AtRead =>
      let (r, f') := read (_filelike (self c)) (_chunk_size (self c)) in
      let c' := with_self c (mkChunkIterator f' (_chunk_size (self c))
                               (seq_num (self c)) (byte_offset (self c))) in
      match r with
      | Ok rd => Some (goto c' t (AtTest rd))
      | Raise e => Some (goto c' t (Leaving (Raise e)))
      end
  | AtTest rd =>
      if not_ rd then Some (goto c t (Leaving (Raise StopIteration)))
      else Some (goto c t (AtThisSeq rd))
  | AtThisSeq rd => Some (goto c t (AtThisOffset rd (seq_num (self c))))
  | AtThisOffset rd s => Some (goto c t (AtBumpSeq rd s (byte_offset (self c))))
  | AtBumpSeq rd s b =>
      let it := mkChunkIterator (_filelike (self c)) (_chunk_size (self c))
                  (seq_num (self c) + 1) (byte_offset (self c)) in
      Some (goto (with_self c it) t (AtBumpOffset rd s b))
  | AtBumpOffset rd s b =>
      let it := mkChunkIterator (_filelike (self c)) (_chunk_size (self c))
                  (seq_num (self c)) (byte_offset (self c) + len rd) in
      Some (goto (with_self c it) t (AtReturn rd s b))
  | AtReturn rd s b =>
      Some (goto c t (Leaving (Ok (s, b, byte_offset (self c), rd))))
  | Leaving r =>
      Some (mkConfig (self c) None (set_pc (pcs c) t Idle)
                     (delivered c ++ [(t, r)]))
  end.

(** The same code without [with self.lock]: a thread goes on to the read
    whoever else is there.  This is not the code; it is here to show what
    the lock is for. *)
Definition step_without_lock (t : nat) (c : config) : option config :=
  match pcs c t with
  | AtLock => Some (goto c t AtRead)
  | _ => step t c
  end.

Fixpoint run_with (step : nat -> config -> option config)
    (schedule : list nat) (c : config) : config :=
  match schedule with
  | [] => c
  | t :: schedule' =>
      run_with step schedule'
        (match step t c with Some c' => c' | None => c end)
  end.

Definition run : list nat -> config -> config := run_with step.

Definition start (filelike : pyobj) (chunk_size : Z) : config :=
  mkConfig (__init__ filelike chunk_size) None (fun _ => Idle) [].

(** The chunks that calls have returned, oldest first. *)
Definition chunks_delivered (c : config) : list Chunk :=
  flat_map (fun d => match snd d with Ok ch => [ch] | Raise _ => [] end)
           (delivered c).

(** Between the read and the end of the [with] block. *)
Definition in_critical (p : pc) : bool :=
  match p with Idle | AtLock => false | _ => true end.

(** What the fields of the iterator are while the thread at [p] is in the
    block, [pre] being the iterator when the thread took the lock. *)
Definition midway (p : pc) (pre it : ChunkIterator) : Prop :=
  match p with
  | Idle | AtLock => False
  | AtRead => it = pre
  | AtTest rd =>
      exists f', read (_filelike pre) (_chunk_size pre) = (Ok rd, f') /\
        it = mkChunkIterator f' (_chunk_size pre) (seq_num pre) (byte_offset pre)
  | AtThisSeq rd =>
      exists f', read (_filelike pre) (_chunk_size pre) = (Ok rd, f') /\
        not_ rd = false /\
        it = mkChunkIterator f' (_chunk_size pre) (seq_num pre) (byte_offset pre)
  | AtThisOffset rd s =>
      exists f', read (_filelike pre) (_chunk_size pre) = (Ok rd, f') /\
        not_ rd = false /\ s = seq_num pre /\
        it = mkChunkIterator f' (_chunk_size pre) (seq_num pre) (byte_offset pre)
  | AtBumpSeq rd s b =>
      exists f', read (_filelike pre) (_chunk_size pre) = (Ok rd, f') /\
        not_ rd = false /\ s = seq_num pre /\ b = byte_offset pre /\
        it = mkChunkIterator f' (_chunk_size pre) (seq_num pre) (byte_offset pre)
  | AtBumpOffset rd s b =>
      exists f', read (_filelike pre) (_chunk_size pre) = (Ok rd, f') /\
        not_ rd = false /\ s = seq_num pre /\ b = byte_offset pre /\
        it = mkChunkIterator f' (_chunk_size pre) (seq_num pre + 1) (byte_offset pre)
  | AtReturn rd s b =>
      exists f', read (_filelike pre) (_chunk_size pre) = (Ok rd, f') /\
        not_ rd = false /\ s = seq_num pre /\ b = byte_offset pre /\
        it = mkChunkIterator f' (_chunk_size pre) (seq_num pre + 1)
               (byte_offset pre + len rd)
  | Leaving r => __next__ pre = (r, it)
  end.

(** The invariant: the chunks delivered are what successive calls give, up
    to an iterator [pre]; the shared iterator is [pre], or on its way from
    [pre] to the next one in the hands of the thread that holds the lock;
    every other thread is outside the block. *)
Definition linear (it0 : ChunkIterator) (c : config) : Prop :=
  exists pre,
    reads it0 (chunks_delivered c) pre /\
    match lock c with
    | None => self c = pre /\ forall t, in_critical (pcs c t) = false
    | Some h =>
        midway (pcs c h) pre (self c) /\
        forall t, t <> h -> in_critical (pcs c t) = false
    end.

Lemma set_pc_same (f : nat -> pc) (t : nat) (p : pc) : set_pc f t p t = p.
Proof. unfold set_pc. now rewrite Nat.eqb_refl. Qed.

Lemma set_pc_other (f : nat -> pc) (t t' : nat) (p : pc) :
  t' <> t -> set_pc f t p t' = f t'.
Proof.
  intros H. unfold set_pc. destruct (Nat.eqb_spec t' t); [contradiction | reflexivity].
Qed.

Lemma linear_start (filelike : pyobj) (chunk_size : Z) :
  linear (__init__ filelike chunk_size) (start filelike chunk_size).
Proof.
  exists (__init__ filelike chunk_size). split; [constructor |].
  cbn. auto.
Qed.

Lemma chunks_delivered_snoc (c : config) (t : nat) (r : result Chunk) :
  flat_map (fun d : nat * result Chunk =>
              match snd d with Ok ch => [ch] | Raise _ => [] end)
           (delivered c ++ [(t, r)]) =
  chunks_delivered c ++ match r with Ok ch => [ch] | Raise _ => [] end.
Proof.
  unfold chunks_delivered. rewrite flat_map_app. cbn. now rewrite app_nil_r.
Qed.

(** A step of the thread that holds the lock, when it is in the block. *)
Lemma step_holder (it0 : ChunkIterator) (h : nat) (c c' : config)
    (pre : ChunkIterator) :
  reads it0 (chunks_delivered c) pre ->
  lock c = Some h ->
  midway (pcs c h) pre (self c) ->
  (forall t, t <> h -> in_critical (pcs c t) = false) ->
  step h c = Some c' ->
  linear it0 c'.
Proof.
  intros Hreads Hlock Hmid Hout. unfold step.
  assert (Hothers : forall p t, t <> h -> in_critical (set_pc (pcs c) h p t) = false).
  { intros p t Ht. rewrite set_pc_other by assumption. auto. }
  destruct (pcs c h) as [| | | rd | rd | rd s | rd s b | rd s b | rd s b | r] eqn:Hpc;
    cbn [midway] in Hmid; try contradiction.
  - (* the read *)
    rewrite Hmid.
    destruct (read (_filelike pre) (_chunk_size pre)) as [[rd | e] f'] eqn:Hread;
      intros H; injection H as <-; exists pre; (split; [exact Hreads |]);
      cbn [lock goto with_self self pcs]; rewrite Hlock;
      (split; [rewrite set_pc_same | now apply Hothers]); cbn [midway].
    + eauto.
    + unfold __next__. now rewrite Hread.
  - (* the test *)
    destruct Hmid as (f' & Hread & Hit).
    destruct (not_ rd) eqn:Hn; intros H; injection H as <-; exists pre;
      (split; [exact Hreads |]);
      cbn [lock goto with_self self pcs]; rewrite Hlock;
      (split; [rewrite set_pc_same | now apply Hothers]); cbn [midway].
    + unfold __next__. rewrite Hread, Hn. now rewrite Hit.
    + eauto.
  - destruct Hmid as (f' & Hread & Hn & Hit).
    intros H; injection H as <-; exists pre; (split; [exact Hreads |]).
    cbn [lock goto with_self self pcs]. rewrite Hlock.
    split; [rewrite set_pc_same | now apply Hothers]. cbn [midway].
    exists f'. rewrite Hit. cbn [seq_num]. auto.
  - destruct Hmid as (f' & Hread & Hn & Hs & Hit).
    intros H; injection H as <-; exists pre; (split; [exact Hreads |]).
    cbn [lock goto with_self self pcs]. rewrite Hlock.
    split; [rewrite set_pc_same | now apply Hothers]. cbn [midway].
    exists f'. rewrite Hit. cbn [byte_offset]. auto.
  - destruct Hmid as (f' & Hread & Hn & Hs & Hb & Hit).
    intros H; injection H as <-; exists pre; (split; [exact Hreads |]).
    cbn [lock goto with_self self pcs]. rewrite Hlock.
    split; [rewrite set_pc_same | now apply Hothers]. cbn [midway].
    exists f'. rewrite Hit. cbn [_filelike _chunk_size seq_num byte_offset]. auto.
  - destruct Hmid as (f' & Hread & Hn & Hs & Hb & Hit).
    intros H; injection H as <-; exists pre; (split; [exact Hreads |]).
    cbn [lock goto with_self self pcs]. rewrite Hlock.
    split; [rewrite set_pc_same | now apply Hothers]. cbn [midway].
    exists f'. rewrite Hit. cbn [_filelike _chunk_size seq_num byte_offset]. auto.
  - destruct Hmid as (f' & Hread & Hn & Hs & Hb & Hit).
    intros H; injection H as <-; exists pre; (split; [exact Hreads |]).
    cbn [lock goto with_self self pcs]. rewrite Hlock.
    split; [rewrite set_pc_same | now apply Hothers]. cbn [midway].
    unfold __next__. rewrite Hread, Hn, Hit, Hs, Hb.
    cbn [byte_offset]. reflexivity.
  - (* the end of the block: the lock is released, the call returns *)
    intros H; injection H as <-.
    assert (Hfree : forall t, in_critical (set_pc (pcs c) h Idle t) = false).
    { intros t. destruct (Nat.eq_dec t h) as [-> | Ht];
        [now rewrite set_pc_same | now apply Hothers]. }
    destruct r as [ch | e].
    + exists (self c). unfold linear, chunks_delivered.
      cbn [lock self pcs delivered]. rewrite chunks_delivered_snoc.
      split; [| auto]. econstructor; eauto.
    + exists (self c). unfold chunks_delivered.
      cbn [lock self pcs delivered]. rewrite chunks_delivered_snoc, app_nil_r.
      split; [| auto].
      apply next_raise_same in Hmid. now rewrite Hmid.
Qed.

Lemma step_linear (it0 : ChunkIterator) (t : nat) (c c' : config) :
  linear it0 c -> step t c = Some c' -> linear it0 c'.
Proof.
  intros (pre & Hreads & Hlock) Hstep.
  destruct (lock c) as [h |] eqn:Hl.
  - destruct Hlock as (Hmid & Hout).
    destruct (Nat.eq_dec t h) as [-> | Ht];
      [eapply step_holder; eauto |].
    (* another thread: it is outside the block *)
    specialize (Hout t Ht) as Hpc. unfold step in Hstep.
    destruct (pcs c t) eqn:Ht'; try discriminate.
    + injection Hstep as <-. exists pre. split; [exact Hreads |].
      cbn [lock goto self pcs]. rewrite Hl. split.
      * rewrite set_pc_other by congruence. exact Hmid.
      * intros t' Hne. destruct (Nat.eq_dec t' t) as [-> | Hne'];
          [now rewrite set_pc_same | rewrite set_pc_other by assumption; auto].
    + rewrite Hl in Hstep. discriminate.
  - destruct Hlock as (Hself & Hout).
    specialize (Hout t) as Hpc. unfold step in Hstep.
    destruct (pcs c t) eqn:Ht'; try discriminate.
    + injection Hstep as <-. exists pre. split; [exact Hreads |].
      cbn [lock goto self pcs]. rewrite Hl. split; [exact Hself |].
      intros t'. destruct (Nat.eq_dec t' t) as [-> | Hne'];
        [now rewrite set_pc_same | rewrite set_pc_other by assumption; auto].
    + rewrite Hl in Hstep. injection Hstep as <-.
      exists pre. split; [exact Hreads |].
      cbn [lock self pcs]. split; [now rewrite set_pc_same |].
      intros t' Hne. rewrite set_pc_other by assumption. auto.
Qed.

Lemma run_linear (it0 : ChunkIterator) (schedule : list nat) :
  forall c : config, linear it0 c -> linear it0 (run schedule c).
Proof.
  unfold run. induction schedule as [| t schedule IH]; intros c Hc; [exact Hc |].
  cbn [run_with]. apply IH.
  destruct (step t c) as [c' |] eqn:Hstep; [| exact Hc].
  eapply step_linear; eauto.
Qed.

Lemma tiles_snoc (cs : list Chunk) :
  forall (a b : Z) (c : Chunk),
    tiles a b cs -> chunk_begin c = b -> b < chunk_end c ->
    tiles a (chunk_end c) (cs ++ [c]).
Proof.
  induction cs as [| c0 cs IH]; intros a b c Ht Hb He; cbn [app tiles] in *.
  - subst. auto.
  - destruct Ht as (H0 & H1 & Ht). repeat split; auto. eapply IH; eauto.
Qed.

Lemma reads_tiles (it0 it : ChunkIterator) (taken : list Chunk) :
  reads it0 taken it -> tiles (byte_offset it0) (byte_offset it) taken.
Proof.
  induction 1 as [| taken it c it' Hreads IH Hnext]; [reflexivity |].
  apply next_chunk in Hnext as (rd & f' & _ & Hrd & -> & ->).
  cbn [byte_offset].
  change (byte_offset it + len rd)
    with (chunk_end (seq_num it, byte_offset it, byte_offset it + len rd, rd)).
  eapply tiles_snoc; [exact IH | reflexivity |].
  cbn [chunk_end]. lia.
Qed.

Lemma tiles_lower (cs : list Chunk) :
  forall (a b : Z) (c : Chunk), tiles a b cs -> In c cs -> a <= chunk_begin c.
Proof.
  induction cs as [| c0 cs IH]; intros a b c Ht Hin; [destruct Hin |].
  cbn [tiles] in Ht. destruct Ht as (H0 & H1 & Ht).
  destruct Hin as [<- | Hin]; [lia |].
  specialize (IH _ _ _ Ht Hin). lia.
Qed.

(** In a list of ranges that follow one another, an earlier range ends
    before a later one begins. *)
Lemma tiles_apart (cs : list Chunk) :
  forall (a b : Z) (i j : nat) (d : Chunk),
    tiles a b cs -> (i < j < length cs)%nat ->
    chunk_end (nth i cs d) <= chunk_begin (nth j cs d).
Proof.
  induction cs as [| c0 cs IH]; intros a b i j d Ht Hij; [cbn in Hij; lia |].
  cbn [tiles] in Ht. destruct Ht as (H0 & H1 & Ht). cbn [length] in Hij.
  destruct j as [| j]; [lia |].
  destruct i as [| i]; cbn [nth].
  - eapply tiles_lower; [exact Ht |]. apply nth_In. lia.
  - eapply IH; [exact Ht | lia].
Qed.

(** C8.  Whatever the number of threads and the order of their steps: at
    most one thread is between the read and the end of the [with] block, and
    it holds the lock; the chunks that the calls have returned are, in the
    order of return, exactly those that successive calls of [__next__] give
    to a single caller.  So their sequence numbers are all different, their
    byte ranges follow one another without overlap, and no chunk is returned
    twice. *)
Theorem next_is_indivisible (filelike : pyobj) (chunk_size : Z)
    (schedule : list nat) :
  (forall t1 t2 : nat,
     in_critical (pcs (run schedule (start filelike chunk_size)) t1) = true ->
     in_critical (pcs (run schedule (start filelike chunk_size)) t2) = true ->
     t1 = t2 /\ lock (run schedule (start filelike chunk_size)) = Some t1) /\
  (exists it : ChunkIterator,
     reads (__init__ filelike chunk_size)
           (chunks_delivered (run schedule (start filelike chunk_size))) it /\
     tiles 0 (byte_offset it)
           (chunks_delivered (run schedule (start filelike chunk_size)))) /\
  NoDup (map chunk_seq
           (chunks_delivered (run schedule (start filelike chunk_size)))) /\
  NoDup (chunks_delivered (run schedule (start filelike chunk_size))) /\
  (forall (i j : nat) (d : Chunk),
     (i < j < length (chunks_delivered
                        (run schedule (start filelike chunk_size))))%nat ->
     chunk_end (nth i (chunks_delivered
                         (run schedule (start filelike chunk_size))) d) <=
     chunk_begin (nth j (chunks_delivered
                           (run schedule (start filelike chunk_size))) d)).
Proof.
  pose proof (run_linear (__init__ filelike chunk_size) schedule
                (start filelike chunk_size) (linear_start filelike chunk_size))
    as (pre & Hreads & Hlock).
  set (c := run schedule (start filelike chunk_size)) in *.
  pose proof (reads_tiles _ _ _ Hreads) as Htiles. cbn [__init__ byte_offset] in Htiles.
  pose proof (reads_seqs_nodup _ _ _ Hreads) as Hseqs.
  split; [| split; [| split; [| split]]].
  - intros t1 t2 H1 H2. destruct (lock c) as [h |].
    + destruct Hlock as (_ & Hout).
      destruct (Nat.eq_dec t1 h) as [-> | Hn1];
        [| rewrite (Hout t1 Hn1) in H1; discriminate].
      destruct (Nat.eq_dec t2 h) as [-> | Hn2];
        [| rewrite (Hout t2 Hn2) in H2; discriminate].
      auto.
    + destruct Hlock as (_ & Hout). rewrite (Hout t1) in H1. discriminate.
  - exists pre. auto.
  - exact Hseqs.
  - eapply NoDup_map_inv; eauto.
  - intros i j d Hij. eapply tiles_apart; eauto.
Qed.

(** Two threads, each statement in turn, on a stream of four bytes and a
    chunk size of two.  With the lock the second thread waits and the two
    calls give the two chunks; without it both calls give sequence number 0
    and the same range. *)
Definition two_in_turn : list nat :=
  concat (repeat [0; 1]%nat 20).

Example with_lock_two_chunks :
  chunks_delivered
    (run two_in_turn
       (start (FileObj [Byte.x61; Byte.x62; Byte.x63; Byte.x64]) 2)) =
    [(0, 0, 2, [Byte.x61; Byte.x62]); (1, 2, 4, [Byte.x63; Byte.x64])].
Proof. reflexivity. Qed.

Example without_lock_same_seq_num :
  chunks_delivered
    (run_with step_without_lock [0; 1; 0; 1; 0; 1; 0; 1; 0; 1; 0; 1; 0; 1;
                                 0; 1; 0; 1; 0; 1]%nat
       (start (FileObj [Byte.x61; Byte.x62; Byte.x63; Byte.x64]) 2)) =
    [(0, 0, 4, [Byte.x61; Byte.x62]); (0, 0, 4, [Byte.x63; Byte.x64])].
Proof. reflexivity. Qed.

End Threads.

(** ** The upload, on every run *)

Lemma payloads_snoc (cs : list Chunk) (c : Chunk) :
  payloads (cs ++ [c]) = payloads cs ++ chunk_payload c.
Proof.
  unfold payloads. rewrite map_app, concat_app. cbn. now rewrite app_nil_r.
Qed.



(** What has been read and what is still in the file make up the file. *)
Lemma reads_payloads (u : list Byte.byte) (C : Z) (taken : list Chunk)
    (it : ChunkIterator) :
  reads (__init__ (FileObj u) C) taken it ->
  payloads taken ++ unread_bytes (_filelike it) = u /\
  byte_offset it = len (payloads taken).
Proof.
  induction 1 as [| taken it c it' Hreads (IHu & IHb) Hnext].
  - cbn. auto.
  - destruct (reads_file _ _ _ _ Hreads) as (u' & s' & b' & ->).
    apply next_chunk in Hnext as (rd & f' & Hread & _ & -> & ->).
    cbn [_filelike _chunk_size seq_num byte_offset unread_bytes] in *.
    destruct (read_file u' C) as (rd' & rest & Hread' & Hu' & _).
    rewrite Hread in Hread'. injection Hread' as <- ->.
    rewrite payloads_snoc. cbn [chunk_payload unread_bytes].
    split.
    + rewrite <- app_assoc, <- Hu'. exact IHu.
    + rewrite len_app, IHb. reflexivity.
Qed.

Lemma reads_stuck (it0 it : ChunkIterator) (taken : list Chunk) (e : exn) :
  fst (__next__ it0) = Raise e ->
  reads it0 taken it -> taken = [] /\ it = it0.
Proof.
  intros Hraise. induction 1 as [| taken it c it' Hreads (-> & ->) Hnext];
    [auto |].
  rewrite Hnext in Hraise. discriminate.
Qed.



(** X5.  When every chunk upload goes through, the upload of a file that is
    not empty with a chunk size of 1 or more is, whatever the schedule and
    the number of workers: the [initiate] request, then one request for
    every chunk of the file (in some order), then one commit request with
    the last sequence number and the length of the file, and, if the commit
    went through, the [show] request.  It returns what [show] returned, and
    raises what [commit] or [show] raised. *)
Theorem acknowledged_upload_run (w : World) (self : Source)
    (stream : list Byte.byte) (content_type : string) (init : InitResponse)
    (cs : list Chunk) (fin : ChunkIterator) :
  stream <> [] ->
  initiate_reply w self content_type = Ok init ->
  1 <= preferred_chunk_size init ->
  1 <= preferred_upload_parallelism init ->
  chunks_of stream (preferred_chunk_size init) = Some (Ok cs, fin) ->
  acknowledged w self cs ->
  exists sent : list event,
    Permutation sent (map (chunk_event self) cs) /\
    _chunked_bytes w self (FileObj stream) content_type =
      match commit_reply w self (Z.of_nat (length cs) - 1) (len stream) with
      | Raise e =>
          (EInitiate self content_type :: sent ++
             [ECommit self (Z.of_nat (length cs) - 1) (len stream)],
           Raises e)
      | Ok _ =>
          (EInitiate self content_type :: sent ++
             [ECommit self (Z.of_nat (length cs) - 1) (len stream); EShow self],
           match show_reply w self with
           | Ok snapshot => Returns snapshot
           | Raise e => Raises e
           end)
      end.
Proof.
  intros Hne Hinit HC1 HN Hcs Hack.
  assert (HC : preferred_chunk_size init <> 0) by lia.
  destruct (chunks_of_facts _ _ _ _ HC Hcs) as (Htiles & Hnum).
  assert (Hlen : 0 < len stream).
  { destruct stream; [congruence |]. rewrite len_cons.
    pose proof (len_nonneg stream). lia. }
  pose proof (tiles_nonempty _ _ _ Htiles Hlen) as Hcsne.
  pose (d := (0, 0, 0, @nil Byte.byte) : Chunk).
  destruct (chunked_bytes_run w self (FileObj stream) content_type init Hinit)
    as (p & taken & Hinv & Hadm & Hfl & Hrun).
  destruct (pool_all_acknowledged w self stream (preferred_chunk_size init)
              (Z.to_nat (preferred_upload_parallelism init)) cs taken fin p
              HC ltac:(lia) Hcs Hack Hinv Hadm Hfl)
    as (-> & Hout & Hdone).
  exists (map (chunk_event self) cs). split; [reflexivity |].
  rewrite Hrun, Hout.
  rewrite (last_of_sorted_completions cs (completed p) 0 d Hnum Hcsne Hdone).
  unfold completion_of. cbv zeta.
  rewrite (numbered_last cs 0 d Hnum Hcsne), (tiles_last cs 0 _ d Htiles Hcsne).
  rewrite Z.add_0_l. reflexivity.
Qed.

Lemma acknowledged_upload_run_witness :
  example_stream <> [] /\
  exists sent : list event,
    Permutation sent
      [EChunk example_source 0 0 [Byte.x61; Byte.x62];
       EChunk example_source 1 2 [Byte.x63; Byte.x64];
       EChunk example_source 2 4 [Byte.x65]] /\
    _chunked_bytes example_world example_source (FileObj example_stream)
      "text/csv" =
      (EInitiate example_source "text/csv" :: sent ++
         [ECommit example_source 2 5; EShow example_source],
       Returns example_source).
Proof.
  split; [discriminate |].
  exact (acknowledged_upload_run example_world example_source example_stream
           "text/csv" (mkInitResponse 2 3)
           [(0, 0, 2, [Byte.x61; Byte.x62]); (1, 2, 4, [Byte.x63; Byte.x64]);
            (2, 4, 5, [Byte.x65])]
           (mkChunkIterator (FileObj []) 2 3 5)
           ltac:(discriminate) eq_refl ltac:(cbn; lia)
           ltac:(cbn; lia) eq_refl ltac:(repeat constructor)).
Defined.

(** X6.  When [initiate] answers with a chunk size of 0, the first [read]
    returns [b''] whatever the file holds: no chunk is sent, [[-1]] raises
    [IndexError], and nothing is committed, also for a file that is not
    empty. *)
Theorem zero_chunk_size_raises (w : World) (self : Source)
    (stream : list Byte.byte) (content_type : string) (init : InitResponse) :
  initiate_reply w self content_type = Ok init ->
  preferred_chunk_size init = 0 ->
  1 <= preferred_upload_parallelism init ->
  chunks_of stream 0 = Some (Ok [], __init__ (FileObj stream) 0) /\
  _chunked_bytes w self (FileObj stream) content_type =
    ([EInitiate self content_type], Raises IndexError).
Proof.
  intros Hinit HC HN.
  assert (Hstop : __next__ (__init__ (FileObj stream) 0) =
                  (Raise StopIteration, __init__ (FileObj stream) 0)).
  { reflexivity. }
  split.
  { unfold chunks_of. cbn [collect]. now rewrite Hstop. }
  destruct (chunked_bytes_run w self (FileObj stream) content_type init Hinit)
    as (p & taken & Hinv & Hadm & Hfl & Hrun).
  destruct Hinv as (Hreads & _ & Hperm & Herr & _).
  rewrite HC in Hreads.
  apply (reads_stuck _ _ _ StopIteration) in Hreads as (-> & Hit);
    [| now rewrite Hstop].
  destruct (quiet_outcome (Z.to_nat (preferred_upload_parallelism init)) p
              ltac:(lia) Hadm Hfl) as [(e & He & _) | (Hnone & _ & Hout)].
  - exfalso. destruct (Herr e He) as [(c & [] & _) | (Hraise & Hnstop)].
    rewrite Hit, Hstop in Hraise. cbn [fst] in Hraise. congruence.
  - specialize (Hperm Hnone). rewrite Hfl in Hperm. cbn [map app] in Hperm.
    apply Permutation_nil in Hperm.
    destruct (completed p) as [| r l] eqn:Hc; [| discriminate].
    rewrite Hrun, Hout. reflexivity.
Qed.

Lemma zero_chunk_size_raises_witness :
  let w := mkWorld (fun _ _ => Ok (mkInitResponse 0 4))
                   (fun _ _ _ _ => Ok tt) (fun _ _ _ => Ok tt)
                   (fun s => Ok s) (fun s _ _ => Ok s) [] in
  initiate_reply w example_source "text/csv" = Ok (mkInitResponse 0 4) /\
  csv w example_source (FileObj example_stream) =
    ([EInitiate example_source "text/csv"], Raises IndexError).
Proof.
  cbv zeta. split; [reflexivity |].
  apply (zero_chunk_size_raises _ example_source example_stream "text/csv"
           (mkInitResponse 0 4)); [reflexivity | reflexivity | cbn; lia].
Defined.

(** ** [__next__] under the lock: progress and accounting *)

(** How many statements a thread at [p] has before it is out of the
    [with] block, at most. *)
Definition statements_left (p : Threads.pc) : nat :=
  match p with
  | Threads.Idle | Threads.AtLock => 0
  | Threads.AtRead => 8
  | Threads.AtTest _ => 7
  | Threads.AtThisSeq _ => 6
  | Threads.AtThisOffset _ _ => 5
  | Threads.AtBumpSeq _ _ _ => 4
  | Threads.AtBumpOffset _ _ _ => 3
  | Threads.AtReturn _ _ _ => 2
  | Threads.Leaving _ => 1
  end.

(** Thread [h] alone, in at most [k] steps, leaves the block: the lock is
    free, [h] is out of the call, and the call has given one result. *)
Definition leaves_within (k : nat) (h : nat) (c : Threads.config) : Prop :=
  exists (n : nat) (r : result Chunk),
    (n <= k)%nat /\
    Threads.lock (Threads.run (repeat h n) c) = None /\
    Threads.pcs (Threads.run (repeat h n) c) h = Threads.Idle /\
    Threads.delivered (Threads.run (repeat h n) c) =
      Threads.delivered c ++ [(h, r)].

Lemma leaves_after_step (k h : nat) (c c1 : Threads.config) :
  Threads.step h c = Some c1 ->
  Threads.delivered c1 = Threads.delivered c ->
  leaves_within k h c1 -> leaves_within (S k) h c.
Proof.
  intros Hstep Hd (n & r & Hn & Hlock & Hpc & Hdel).
  exists (S n), r. unfold Threads.run in *. cbn [repeat Threads.run_with].
  rewrite Hstep, <- Hd. repeat split; auto. lia.
Qed.

Lemma leaves_in_time (k : nat) :
  forall (h : nat) (c : Threads.config),
    Threads.in_critical (Threads.pcs c h) = true ->
    (statements_left (Threads.pcs c h) <= k)%nat ->
    leaves_within k h c.
Proof.
  induction k as [| k IH]; intros h c Hin Hk.
  - destruct (Threads.pcs c h); cbn in Hin, Hk; try discriminate; lia.
  - destruct (Threads.pcs c h)
      as [| | | rd | rd | rd s | rd s b | rd s b | rd s b | r] eqn:Hpc;
      try discriminate.
    + (* the read *)
      destruct (read (_filelike (Threads.self c)) (_chunk_size (Threads.self c)))
        as [[rd | e] f'] eqn:Hread.
      * eapply leaves_after_step;
          [unfold Threads.step; rewrite Hpc, Hread; reflexivity | reflexivity |].
        apply IH; cbn [Threads.pcs Threads.goto]; rewrite Threads.set_pc_same;
          [reflexivity | cbn in *; lia].
      * eapply leaves_after_step;
          [unfold Threads.step; rewrite Hpc, Hread; reflexivity | reflexivity |].
        apply IH; cbn [Threads.pcs Threads.goto]; rewrite Threads.set_pc_same;
          [reflexivity | cbn in *; lia].
    + (* the test *)
      destruct (not_ rd) eqn:Hn.
      * eapply leaves_after_step;
          [unfold Threads.step; rewrite Hpc, Hn; reflexivity | reflexivity |].
        apply IH; cbn [Threads.pcs Threads.goto]; rewrite Threads.set_pc_same;
          [reflexivity | cbn in *; lia].
      * eapply leaves_after_step;
          [unfold Threads.step; rewrite Hpc, Hn; reflexivity | reflexivity |].
        apply IH; cbn [Threads.pcs Threads.goto]; rewrite Threads.set_pc_same;
          [reflexivity | cbn in *; lia].
    + eapply leaves_after_step;
        [unfold Threads.step; rewrite Hpc; reflexivity | reflexivity |].
      apply IH; cbn [Threads.pcs Threads.goto]; rewrite Threads.set_pc_same;
        [reflexivity | cbn in *; lia].
    + eapply leaves_after_step;
        [unfold Threads.step; rewrite Hpc; reflexivity | reflexivity |].
      apply IH; cbn [Threads.pcs Threads.goto]; rewrite Threads.set_pc_same;
        [reflexivity | cbn in *; lia].
    + eapply leaves_after_step;
        [unfold Threads.step; rewrite Hpc; reflexivity | reflexivity |].
      apply IH; cbn [Threads.pcs Threads.goto Threads.with_self];
        rewrite Threads.set_pc_same; [reflexivity | cbn in *; lia].
    + eapply leaves_after_step;
        [unfold Threads.step; rewrite Hpc; reflexivity | reflexivity |].
      apply IH; cbn [Threads.pcs Threads.goto Threads.with_self];
        rewrite Threads.set_pc_same; [reflexivity | cbn in *; lia].
    + eapply leaves_after_step;
        [unfold Threads.step; rewrite Hpc; reflexivity | reflexivity |].
      apply IH; cbn [Threads.pcs Threads.goto]; rewrite Threads.set_pc_same;
        [reflexivity | cbn in *; lia].
    + (* the end of the block *)
      exists 1%nat, r. unfold Threads.run. cbn [repeat Threads.run_with].
      unfold Threads.step. rewrite Hpc.
      cbn [Threads.lock Threads.pcs Threads.delivered].
      rewrite Threads.set_pc_same. repeat split. lia.
Qed.

(** X7.  A thread that is inside the [with] block leaves it after at most
    eight statements of its own, whatever the iterator holds: also when the
    read comes back empty and [StopIteration] is raised, and when [read]
    itself raises.  The lock is then free and the call has given exactly one
    result, so no caller is left waiting for ever. *)
Theorem lock_is_released (h : nat) (c : Threads.config) :
  Threads.in_critical (Threads.pcs c h) = true ->
  exists (n : nat) (r : result Chunk),
    (n <= 8)%nat /\
    Threads.lock (Threads.run (repeat h n) c) = None /\
    Threads.pcs (Threads.run (repeat h n) c) h = Threads.Idle /\
    Threads.delivered (Threads.run (repeat h n) c) =
      Threads.delivered c ++ [(h, r)].
Proof.
  intros Hin. apply (leaves_in_time 8 h c Hin).
  destruct (Threads.pcs c h); cbn; lia.
Qed.

Lemma lock_is_released_witness :
  let c := Threads.run [0; 0; 0]%nat (Threads.start (FileObj []) 2) in
  Threads.in_critical (Threads.pcs c 0%nat) = true /\
  exists (n : nat) (r : result Chunk),
    (n <= 8)%nat /\
    Threads.lock (Threads.run (repeat 0%nat n) c) = None /\
    Threads.delivered (Threads.run (repeat 0%nat n) c) = [(0%nat, r)].
Proof.
  cbv zeta. split; [reflexivity |].
  destruct (lock_is_released 0
              (Threads.run [0; 0; 0]%nat (Threads.start (FileObj []) 2))
              eq_refl)
    as (n & r & Hn & Hlock & _ & Hdel).
  exists n, r. repeat split; assumption.
Defined.

(** X8.  Whenever no call is inside the block, however the threads have
    been scheduled before: the payloads that the calls have returned, in
    the order of return, followed by what the file still holds, are the
    file, byte for byte; [byte_offset] is the number of bytes returned and
    [seq_num] the number of chunks returned. *)
Theorem no_byte_lost_between_threads (stream : list Byte.byte) (chunk_size : Z)
    (schedule : list nat) :
  Threads.lock (Threads.run schedule (Threads.start (FileObj stream) chunk_size))
    = None ->
  payloads (Threads.chunks_delivered
              (Threads.run schedule (Threads.start (FileObj stream) chunk_size)))
    ++ unread_bytes
         (_filelike (Threads.self
            (Threads.run schedule (Threads.start (FileObj stream) chunk_size))))
    = stream /\
  byte_offset (Threads.self
     (Threads.run schedule (Threads.start (FileObj stream) chunk_size))) =
    len (payloads (Threads.chunks_delivered
           (Threads.run schedule (Threads.start (FileObj stream) chunk_size)))) /\
  seq_num (Threads.self
     (Threads.run schedule (Threads.start (FileObj stream) chunk_size))) =
    Z.of_nat (length (Threads.chunks_delivered
           (Threads.run schedule (Threads.start (FileObj stream) chunk_size)))).
Proof.
  intros Hfree.
  pose proof (Threads.run_linear (__init__ (FileObj stream) chunk_size) schedule
                (Threads.start (FileObj stream) chunk_size)
                (Threads.linear_start (FileObj stream) chunk_size))
    as (pre & Hreads & Hlock).
  rewrite Hfree in Hlock. destruct Hlock as (-> & _).
  destruct (reads_payloads _ _ _ _ Hreads) as (Hsplit & Hoff).
  destruct (reads_state _ _ _ Hreads) as (_ & Hseq & _).
  repeat split; assumption.
Qed.

Lemma no_byte_lost_between_threads_witness :
  Threads.lock
    (Threads.run [0; 1; 0; 1; 0; 0; 0; 0; 0; 0; 0; 0]%nat
       (Threads.start (FileObj [Byte.x61; Byte.x62; Byte.x63; Byte.x64; Byte.x65]) 2))
    = None /\
  payloads (Threads.chunks_delivered
    (Threads.run [0; 1; 0; 1; 0; 0; 0; 0; 0; 0; 0; 0]%nat
       (Threads.start (FileObj [Byte.x61; Byte.x62; Byte.x63; Byte.x64; Byte.x65]) 2)))
    ++ unread_bytes (_filelike (Threads.self
    (Threads.run [0; 1; 0; 1; 0; 0; 0; 0; 0; 0; 0; 0]%nat
       (Threads.start (FileObj [Byte.x61; Byte.x62; Byte.x63; Byte.x64; Byte.x65]) 2))))
    = [Byte.x61; Byte.x62; Byte.x63; Byte.x64; Byte.x65].
Proof.
  split; [reflexivity |].
  apply (no_byte_lost_between_threads
           [Byte.x61; Byte.x62; Byte.x63; Byte.x64; Byte.x65] 2
           [0; 1; 0; 1; 0; 0; 0; 0; 0; 0; 0; 0]%nat).
  reflexivity.
Defined.

(** ** [get_latest_input_schema] *)

Lemma max_from_spec {A : Type} (key : A -> Z) (l : list A) :
  forall (pre : list A) (best : A) (mid : list A),
    (forall x, In x pre -> key x < key best) ->
    (forall x, In x mid -> key x <= key best) ->
    exists before after,
      pre ++ best :: mid ++ l = before ++ max_from key best l :: after /\
      (forall x, In x before -> key x < key (max_from key best l)) /\
      (forall x, In x after -> key x <= key (max_from key best l)).
Proof.
  induction l as [| x l IH]; intros pre best mid Hpre Hmid; cbn [max_from].
  - exists pre, mid. rewrite app_nil_r. auto.
  - destruct (Z.ltb_spec (key best) (key x)) as [Hlt | Hge].
    + destruct (IH (pre ++ best :: mid) x []) as (before & after & Heq & Hb & Ha).
      * intros y Hy. apply in_app_or in Hy as [Hy | [<- | Hy]];
          [specialize (Hpre y Hy) | | specialize (Hmid y Hy)]; lia.
      * intros y [].
      * exists before, after. split; [| auto].
        rewrite <- Heq, <- app_assoc. reflexivity.
    + destruct (IH pre best (mid ++ [x])) as (before & after & Heq & Hb & Ha).
      * exact Hpre.
      * intros y Hy. apply in_app_or in Hy as [Hy | [<- | []]]; [auto | lia].
      * exists before, after. split; [| auto].
        rewrite <- Heq, <- app_assoc. reflexivity.
Qed.

(** X9.  [get_latest_input_schema] raises [ValueError] exactly when the
    source has no input schema; otherwise it returns a schema of the list
    whose id no other schema exceeds, and of several schemas with that id
    the first in the list. *)
Theorem latest_input_schema_is_first_maximum {InputSchema : Type}
    (attributes_id : InputSchema -> Z) (input_schemas : list InputSchema) :
  match get_latest_input_schema attributes_id input_schemas with
  | Error e => e = ValueError /\ input_schemas = []
  | Value s =>
      exists before after,
        input_schemas = before ++ s :: after /\
        (forall x, In x before -> attributes_id x < attributes_id s) /\
        (forall x, In x after -> attributes_id x <= attributes_id s)
  end.
Proof.
  unfold get_latest_input_schema, max_.
  destruct input_schemas as [| s0 l]; [auto |].
  destruct (max_from_spec attributes_id l [] s0 [])
    as (before & after & Heq & Hb & Ha); [intros x [] | intros x [] |].
  exists before, after. cbn [app] in Heq. auto.
Qed.

(** ** URLs *)

Lemma str_inj (a b : Z) : str a = str b -> a = b.
Proof.
  unfold str. intros H.
  assert (Hparse : forall z, NilZero.int_of_string
                               (NilZero.string_of_int (Z.to_int z)) =
                             Some (Z.to_int z)).
  { intros z. apply NilZero.isi; destruct z; cbn; try discriminate;
      intros [= Hnil]; now apply Unsigned.to_uint_nonnil in Hnil. }
  apply DecimalZ.to_int_inj.
  pose proof (Hparse a) as Ha. rewrite H, Hparse in Ha. now injection Ha.
Qed.

Lemma append_inv_head (s a b : string) :
  (s ++ a)%string = (s ++ b)%string -> a = b.
Proof.
  induction s as [| ch s IH]; cbn; [auto |]. intros [= H]. auto.
Qed.

(** X10.  For one domain, [Sources.lookup] gets a different URL for every
    source id. *)
Theorem lookup_urls_differ (domain : string) (a b : Z) :
  a <> b -> Sources.lookup_url domain a <> Sources.lookup_url domain b.
Proof.
  intros Hne H. apply Hne. unfold Sources.lookup_url in H.
  apply append_inv_head, append_inv_head in H. now apply str_inj.
Qed.

Lemma lookup_urls_differ_witness :
  12 <> 120 /\
  Sources.lookup_url "data.example.org" 12 <>
  Sources.lookup_url "data.example.org" 120 /\
  Sources.lookup_url "data.example.org" 12 =
    "https://data.example.org/api/publishing/v1/source/12"%string.
Proof.
  split; [discriminate |]. split; [| reflexivity].
  apply (lookup_urls_differ "data.example.org" 12 120). discriminate.
Defined.

(** X11.  For one domain, [Revisions.path] gives a different URL for every
    dataset identifier. *)
Theorem revision_paths_differ (domain a b : string) :
  a <> b -> Revisions.path domain a <> Revisions.path domain b.
Proof.
  intros Hne H. apply Hne. unfold Revisions.path in H.
  now apply append_inv_head, append_inv_head, append_inv_head in H.
Qed.

Lemma revision_paths_differ_witness :
  "abcd-1234"%string <> "abcd-1235"%string /\
  Revisions.path "data.example.org" "abcd-1234" <>
  Revisions.path "data.example.org" "abcd-1235".
Proof.
  split; [discriminate |].
  apply (revision_paths_differ "data.example.org" "abcd-1234" "abcd-1235").
  discriminate.
Defined.
